(** * Ring World: the ring carousel's position / selection engine

    A shallow embedding of the hooks and of the [Ring] component of the
    ring-world library:

    - [Ease]  : the easing table of [hooks/useAnimation] (over the reals,
                because [outElastic] uses [sin] and a real power);
    - [Anim]  : [useStepAnimation], the circular step animator;
    - [Nav]   : the [move] callback of [useRingNav];
    - [View]  : [visibleSlots] and [selectedItem] of [components/Ring.tsx];
    - [Input] : [useRingInput], with the timer queue made explicit.

    Modelling conventions.  A JavaScript number that holds an integer is a
    [Z]; the remainder operator [%] is [Z.rem] (the sign follows the
    dividend).  A number that may be fractional (an animated position) is an
    exact rational [Q]: rounding error of IEEE doubles is not modelled.
    [Date.now()] is a [Z] of milliseconds.  An optional value is an
    [option]. *)

From Stdlib Require Import ZArith QArith Qround Qabs Reals.
From Stdlib Require Import List String Bool Lia Psatz.
Import ListNotations.

(** ** JavaScript helpers *)

Module JS.

(** [a % b] on integral numbers, for [b <> 0] (JavaScript yields [NaN] for a
    zero divisor; the rings here are not empty). *)
Definition rem (a b : Z) : Z := Z.rem a b.

(** [Math.round]: the nearest integer, halves going up. *)
Definition round (x : Q) : Z := Qfloor (x + (1 # 2)).

(** [arr[i]] for an integral [i]: [undefined] outside the array. *)
Definition get {A : Type} (arr : list A) (i : Z) : option A :=
  if (i <? 0)%Z then None else nth_error arr (Z.to_nat i).

(** [arr.length] *)
Definition length {A : Type} (arr : list A) : Z := Z.of_nat (List.length arr).

End JS.

(** ** [useRingNav]: the index update of [move] *)

Module Nav.
Local Open Scope Z_scope.

(** The updater passed to [setIndex] by [move(delta)]. *)
Definition move (itemCount : Z) (wrap : bool) (delta : Z) (current : Z) : Z :=
  let next := current + delta in
  if wrap
  then JS.rem (JS.rem next itemCount + itemCount) itemCount
  else Z.max 0 (Z.min (itemCount - 1) next).

(** The wrap rule as the specification words it, with the mathematical
    (non-negative) residue. *)
Definition wrapSpec (count index delta : Z) : Z :=
  ((index + delta) mod count + count) mod count.

(** The clamp rule as the specification words it. *)
Definition clampSpec (count index delta : Z) : Z :=
  Z.max 0 (Z.min (count - 1) (index + delta)).

End Nav.

(** ** [Ring]: the visible window and the selected item *)

Module View.
Local Open Scope Z_scope.

Record RingItem := mkItem {
  id : string;
  label : string;
  icon : option string;
  color : option string;
  description : option string
}.

Record Slot := mkSlot {
  item : option RingItem;   (* [items[itemIndex]], [None] when undefined *)
  index : Z;
  depth : Z;
  offset : Z
}.

(** The values taken by [i] in [for (i = -half; i <= half; i++)]. *)
Definition offsets (halfVisible : Z) : list Z :=
  map (fun k => Z.of_nat k - halfVisible)
      (seq 0 (Z.to_nat (2 * halfVisible + 1))).

(** The index wrap of the loop body. *)
Definition wrapIndex (n itemIndex : Z) : Z :=
  JS.rem (JS.rem itemIndex n + n) n.

Definition slotAt (items : list RingItem) (animatedPosition : Q) (i : Z) : Slot :=
  let depth := Z.abs i in
  let itemIndex := JS.round animatedPosition + i in
  let itemIndex := wrapIndex (JS.length items) itemIndex in
  mkSlot (JS.get items itemIndex) itemIndex depth i.

Definition visibleSlots (items : list RingItem) (animatedPosition : Q)
           (visibleItems : Z) : list Slot :=
  let halfVisible := visibleItems / 2 in
  map (slotAt items animatedPosition) (offsets halfVisible).

(** [items[Math.round(animatedPosition) % items.length]] *)
Definition selectedItem (items : list RingItem) (animatedPosition : Q)
  : option RingItem :=
  JS.get items (JS.rem (JS.round animatedPosition) (JS.length items)).

(** A ring of five items, as in the examples. *)
Definition fiveItems : list RingItem :=
  map (fun n => mkItem n n None None None) ["a"; "b"; "c"; "d"; "e"]%string.

(** [isControlled ? controlledIndex : internalIndex] *)
Definition targetIndex (controlledIndex : option Z) (internalIndex : Z) : Z :=
  match controlledIndex with
  | Some c => c
  | None => internalIndex
  end.

End View.

(** ** [useStepAnimation]: the circular step animator *)

Module Anim.
Local Open Scope Q_scope.

(** [ease.smoothStep], the easing [Ring] asks for. *)
Definition smoothStep (t : Q) : Q := t * t * (3 - 2 * t).

(** The "shortest path around the ring" computation of the effect. *)
Definition shortestDelta (target current total : Q) : Q :=
  let delta := target - current in
  if Qlt_le_dec (total / 2) (Qabs delta)
  then (if Qlt_le_dec 0 delta then delta - total else delta + total)
  else delta.

(** [while (newValue < 0) newValue += total].  The loop is run with fuel;
    [None] stands for a loop that is still running when the fuel is out. *)
Fixpoint addWhileNegative (fuel : nat) (total v : Q) : option Q :=
  match fuel with
  | O => None
  | S fuel' =>
      if Qlt_le_dec v 0 then addWhileNegative fuel' total (v + total)
      else Some v
  end.

(** [while (newValue >= total) newValue -= total] *)
Fixpoint subWhileAtLeast (fuel : nat) (total v : Q) : option Q :=
  match fuel with
  | O => None
  | S fuel' =>
      if Qlt_le_dec v total then Some v
      else subWhileAtLeast fuel' total (v - total)
  end.

(** A number of iterations that is enough for either loop when
    [total > 0]: one more than [ceil (|v| / total)]. *)
Definition loopBound (total v : Q) : nat :=
  S (Z.to_nat (Qceiling (Qabs v / total))).

(** "Normalize to [0, total)": the two loops in sequence. *)
Definition normalize (total v : Q) : option Q :=
  match addWhileNegative (loopBound total v) total v with
  | None => None
  | Some v' => subWhileAtLeast (loopBound total v) total v'
  end.

(** The arguments of one call of the hook. *)
Record Props := mkProps {
  target : Q;
  total : Q;
  duration : Z;
  easeFn : Q -> Q
}.

(** The [animate] closure created by one run of the effect. *)
Record Animate := mkAnimate {
  props : Props;
  endValue : Q
}.

(** The state of one hook instance: the [current] state cell, the two refs
    and the frame requested through [requestAnimationFrame], if any. *)
Record StepAnim := mkStepAnim {
  current : Q;
  startRef : Q;
  startTimeRef : option Z;
  frameRef : option Animate
}.

Definition setCurrent (v : Q) (s : StepAnim) : StepAnim :=
  mkStepAnim v (startRef s) (startTimeRef s) (frameRef s).

(** First render: [useState(target)], [useRef(current)]. *)
Definition mount (p : Props) : StepAnim :=
  mkStepAnim (target p) (target p) None None.

(** The hook returns [current]. *)
Definition useStepAnimation (s : StepAnim) : Q := current s.

(** One run of the effect at time [now]; the cleanup of the previous run
    has cancelled the requested frame. *)
Definition effect (p : Props) (now : Z) (s : StepAnim) : StepAnim :=
  if Qlt_le_dec (Qabs (current s - target p)) (1 # 1000)
  then mkStepAnim (target p) (startRef s) (startTimeRef s) None
  else
    let delta := shortestDelta (target p) (current s) (total p) in
    let endValue := current s + delta in
    mkStepAnim (current s) (current s) (Some now)
               (Some (mkAnimate p endValue)).

Definition progressAt (p : Props) (start : option Z) (now : Z) : Q :=
  let elapsed := (now - match start with Some t => t | None => 0 end)%Z in
  let r := inject_Z elapsed / inject_Z (duration p) in
  if Qlt_le_dec r 1 then r else 1.

(** One animation frame at time [now].  The result lists the values handed
    to [setCurrent], in order, next to the new state; [None] when the
    normalisation loops do not terminate. *)
Definition animate (now : Z) (s : StepAnim) : option (list Q * StepAnim) :=
  match frameRef s with
  | None => Some ([], s)
  | Some a =>
      let p := props a in
      let progress := progressAt p (startTimeRef s) now in
      let eased := easeFn p progress in
      let newValue := startRef s + (endValue a - startRef s) * eased in
      match normalize (total p) newValue with
      | None => None
      | Some newValue =>
          if Qlt_le_dec progress 1
          then Some ([newValue], setCurrent newValue s)
          else Some ([newValue; target p],
                     mkStepAnim (target p) (startRef s) (startTimeRef s) None)
      end
  end.

(** What happens to a mounted hook: a render with new arguments followed
    by its effect, or an animation frame. *)
Inductive Event :=
| Render (p : Props) (now : Z)
| Frame (now : Z).

Definition step (e : Event) (s : StepAnim) : option (list Q * StepAnim) :=
  match e with
  | Render p now => let s' := effect p now s in Some ([current s'], s')
  | Frame now => animate now s
  end.

(** Run a list of events; the values [current] went through are collected. *)
Fixpoint run (es : list Event) (s : StepAnim) : option (list Q * StepAnim) :=
  match es with
  | [] => Some ([], s)
  | e :: es' =>
      match step e s with
      | None => None
      | Some (vs, s') =>
          match run es' s' with
          | None => None
          | Some (ws, s'') => Some (vs ++ ws, s'')
          end
      end
  end.

Definition inRange (total v : Q) : Prop := 0 <= v /\ v < total.




End Anim.

(** ** [Ring]: what one render derives from the hooks *)

Module Ring.

(** The arguments [Ring] hands to [useStepAnimation]. *)
Definition animProps (items : list View.RingItem) (controlledIndex : option Z)
           (internalIndex : Z) : Anim.Props :=
  Anim.mkProps (inject_Z (View.targetIndex controlledIndex internalIndex))
               (inject_Z (JS.length items)) 150 Anim.smoothStep.

Record Snapshot := mkSnapshot {
  slots : list View.Slot;
  selected : option View.RingItem
}.

(** The slots and the selected item of a render, given the animator. *)
Definition render (items : list View.RingItem) (visibleItems : Z)
           (anim : Anim.StepAnim) : Snapshot :=
  let animatedPosition := Anim.useStepAnimation anim in
  mkSnapshot (View.visibleSlots items animatedPosition visibleItems)
             (View.selectedItem items animatedPosition).

(** The first render: [useRingNav] starts at index 0 and the animator is
    mounted on the target index. *)
Definition firstRender (items : list View.RingItem) (controlledIndex : option Z)
           (visibleItems : Z) : Snapshot :=
  render items visibleItems (Anim.mount (animProps items controlledIndex 0)).

End Ring.

(** ** The easing table [ease] *)

Module Ease.
Local Open Scope R_scope.

Definition linear (t : R) : R := t.

Definition inQuad (t : R) : R := t * t.
Definition outQuad (t : R) : R := t * (2 - t).
Definition inOutQuad (t : R) : R :=
  if Rlt_dec t (1 / 2) then 2 * t * t else -1 + (4 - 2 * t) * t.

Definition inCubic (t : R) : R := t * t * t.
(** [--t * t * t + 1]: [t] is decremented before it is read. *)
Definition outCubic (t : R) : R :=
  let t := t - 1 in t * t * t + 1.
Definition inOutCubic (t : R) : R :=
  if Rlt_dec t (1 / 2) then 4 * t * t * t
  else (t - 1) * (2 * t - 2) * (2 * t - 2) + 1.

(** [2 ** (-10 * t) * Math.sin(((t - p / 4) * (2 * Math.PI)) / p) + 1] *)
Definition outElastic (t : R) : R :=
  let p := 3 / 10 in
  Rpower 2 (-10 * t) * sin (((t - p / 4) * (2 * PI)) / p) + 1.

(** [--t * t * ((s + 1) * t + s) + 1] *)
Definition outBack (t : R) : R :=
  let s := 170158 / 100000 in
  let t := t - 1 in
  t * t * ((s + 1) * t + s) + 1.

Definition smoothStep (t : R) : R := t * t * (3 - 2 * t).

Definition snap (t : R) : R :=
  let p := 1 / 2 in
  if Rlt_dec t p then (1 / 2) * (2 * t) ^ 2
  else (1 / 2) * (2 - (2 * (1 - t)) ^ 2).

(** [keyof typeof ease] *)
Inductive EaseFn :=
| Linear | InQuad | OutQuad | InOutQuad | InCubic | OutCubic | InOutCubic
| OutElastic | OutBack | SmoothStep | Snap.

Definition ease (f : EaseFn) : R -> R :=
  match f with
  | Linear => linear
  | InQuad => inQuad
  | OutQuad => outQuad
  | InOutQuad => inOutQuad
  | InCubic => inCubic
  | OutCubic => outCubic
  | InOutCubic => inOutCubic
  | OutElastic => outElastic
  | OutBack => outBack
  | SmoothStep => smoothStep
  | Snap => snap
  end.

End Ease.

(** ** [useRingInput]: the input dispatcher

    The timers of [setTimeout] are kept in an explicit queue.  Time advances
    between events; when it does, the timers whose deadline has passed run in
    deadline order (the earlier created first on a tie), each before any key
    that arrives at or after its deadline. *)

Module Input.
Local Open Scope Z_scope.

(** [TIMING.DOUBLE_PRESS_WINDOW] and [TIMING.LONG_PRESS_THRESHOLD] *)
Definition DOUBLE_PRESS_WINDOW : Z := 250.
Definition LONG_PRESS_THRESHOLD : Z := 400.

Inductive InputAction :=
| Up | Down | Left | Right | Press | DoublePress | LongPress | Escape | Tab.

Record InputState := mkInputState {
  lastAction : option InputAction;
  isLongPressing : bool;
  pressCount : Z
}.

(** Which optional callbacks the caller has supplied. *)
Record InputHandlers := mkHandlers {
  onUp : bool;
  onDown : bool;
  onLeft : bool;
  onRight : bool;
  onPress : bool;
  onDoublePress : bool;
  onLongPress : bool;
  onLongPressEnd : bool;
  onEscape : bool;
  onTab : bool
}.

(** The fields of ink's [Key] that the hook reads. *)
Record Key := mkKey {
  upArrow : bool;
  downArrow : bool;
  leftArrow : bool;
  rightArrow : bool;
  tab : bool;
  escape : bool;
  return_ : bool
}.

(** The two callbacks handed to [setTimeout]. *)
Inductive TimerKind := LongPressTimer | DoublePressTimer.

Record Timer := mkTimer {
  handle : nat;
  deadline : Z;
  callback : TimerKind
}.

(** What the hook does to the outside: a call of [dispatch], a call of a
    caller's handler, or [exit()]. *)
Inductive Output :=
| Dispatched (a : InputAction)
| Called (a : InputAction)
| Exited.

Record Hook := mkHook {
  state : InputState;
  pressStartRef : option Z;
  lastPressRef : Z;
  longPressTimerRef : option nat;
  doublePressTimerRef : option nat;
  pendingPressRef : bool;
  timers : list Timer;        (* armed timers, in creation order *)
  nextHandle : nat;
  outputs : list Output       (* oldest first *)
}.

Definition mounted : Hook :=
  mkHook (mkInputState None false 0) None 0 None None false [] 0%nat [].

Definition setState (f : InputState -> InputState) (h : Hook) : Hook :=
  mkHook (f (state h)) (pressStartRef h) (lastPressRef h)
         (longPressTimerRef h) (doublePressTimerRef h) (pendingPressRef h)
         (timers h) (nextHandle h) (outputs h).
Definition setPressStart (v : option Z) (h : Hook) : Hook :=
  mkHook (state h) v (lastPressRef h)
         (longPressTimerRef h) (doublePressTimerRef h) (pendingPressRef h)
         (timers h) (nextHandle h) (outputs h).
Definition setLastPress (v : Z) (h : Hook) : Hook :=
  mkHook (state h) (pressStartRef h) v
         (longPressTimerRef h) (doublePressTimerRef h) (pendingPressRef h)
         (timers h) (nextHandle h) (outputs h).
Definition setLongRef (v : option nat) (h : Hook) : Hook :=
  mkHook (state h) (pressStartRef h) (lastPressRef h)
         v (doublePressTimerRef h) (pendingPressRef h)
         (timers h) (nextHandle h) (outputs h).
Definition setDoubleRef (v : option nat) (h : Hook) : Hook :=
  mkHook (state h) (pressStartRef h) (lastPressRef h)
         (longPressTimerRef h) v (pendingPressRef h)
         (timers h) (nextHandle h) (outputs h).
Definition setPending (v : bool) (h : Hook) : Hook :=
  mkHook (state h) (pressStartRef h) (lastPressRef h)
         (longPressTimerRef h) (doublePressTimerRef h) v
         (timers h) (nextHandle h) (outputs h).
Definition emit (o : Output) (h : Hook) : Hook :=
  mkHook (state h) (pressStartRef h) (lastPressRef h)
         (longPressTimerRef h) (doublePressTimerRef h) (pendingPressRef h)
         (timers h) (nextHandle h) (outputs h ++ [o]).

(** [setTimeout(cb, ms)] at time [now]: the new handle and the new state. *)
Definition setTimeout (cb : TimerKind) (now ms : Z) (h : Hook) : nat * Hook :=
  (nextHandle h,
   mkHook (state h) (pressStartRef h) (lastPressRef h)
          (longPressTimerRef h) (doublePressTimerRef h) (pendingPressRef h)
          (timers h ++ [mkTimer (nextHandle h) (now + ms) cb])
          (S (nextHandle h)) (outputs h)).

Definition clearTimeout (t : nat) (h : Hook) : Hook :=
  mkHook (state h) (pressStartRef h) (lastPressRef h)
         (longPressTimerRef h) (doublePressTimerRef h) (pendingPressRef h)
         (filter (fun tm => negb (Nat.eqb (handle tm) t)) (timers h))
         (nextHandle h) (outputs h).

Definition clearTimers (h : Hook) : Hook :=
  let h :=
    match longPressTimerRef h with
    | Some t => setLongRef None (clearTimeout t h)
    | None => h
    end in
  match doublePressTimerRef h with
  | Some t => setDoubleRef None (clearTimeout t h)
  | None => h
  end.

Definition handlerFor (hs : InputHandlers) (a : InputAction) : bool :=
  match a with
  | Up => onUp hs
  | Down => onDown hs
  | Left => onLeft hs
  | Right => onRight hs
  | Press => onPress hs
  | DoublePress => onDoublePress hs
  | LongPress => onLongPress hs
  | Escape => onEscape hs
  | Tab => onTab hs
  end.

Definition dispatch (hs : InputHandlers) (a : InputAction) (h : Hook) : Hook :=
  let h := setState (fun s => mkInputState (Some a) (isLongPressing s)
                                           (pressCount s)) h in
  let h := emit (Dispatched a) h in
  if handlerFor hs a then emit (Called a) h else h.

Definition bumpPressCount (h : Hook) : Hook :=
  setState (fun s => mkInputState (lastAction s) (isLongPressing s)
                                  (pressCount s + 1)) h.

(** The callback of the long-press timer. *)
Definition longPressFired (hs : InputHandlers) (h : Hook) : Hook :=
  let h := setState (fun s => mkInputState (lastAction s) true
                                           (pressCount s)) h in
  let h := dispatch hs LongPress h in
  let h := setPressStart None h in
  setPending false h.

(** The callback of the double-press timer. *)
Definition doublePressExpired (hs : InputHandlers) (h : Hook) : Hook :=
  let h :=
    if pendingPressRef h && (match pressStartRef h with
                             | Some _ => true
                             | None => false
                             end)
    then
      let h := match longPressTimerRef h with
               | Some t => clearTimeout t h
               | None => h
               end in
      let h := dispatch hs Press h in
      bumpPressCount h
    else h in
  setPending false h.

Definition fire (hs : InputHandlers) (cb : TimerKind) (h : Hook) : Hook :=
  match cb with
  | LongPressTimer => longPressFired hs h
  | DoublePressTimer => doublePressExpired hs h
  end.

(** The armed timer with the least deadline (the first such in creation
    order). *)
Fixpoint earliest (ts : list Timer) : option Timer :=
  match ts with
  | [] => None
  | t :: ts' =>
      match earliest ts' with
      | None => Some t
      | Some u => if deadline t <=? deadline u then Some t else Some u
      end
  end.

Definition nextDue (now : Z) (ts : list Timer) : option Timer :=
  earliest (filter (fun t => deadline t <=? now) ts).

(** Run the due timers, one after the other.  No callback arms a timer, so
    as many rounds as there are armed timers is enough. *)
Fixpoint runTimers (fuel : nat) (hs : InputHandlers) (now : Z) (h : Hook)
  : Hook :=
  match fuel with
  | O => h
  | S fuel' =>
      match nextDue now (timers h) with
      | None => h
      | Some t =>
          runTimers fuel' hs now
                    (fire hs (callback t) (clearTimeout (handle t) h))
      end
  end.

(** Time reaches [now]. *)
Definition advance (hs : InputHandlers) (now : Z) (h : Hook) : Hook :=
  runTimers (List.length (timers h)) hs now h.

(** The Enter / Space branch of the [useInput] callback. *)
Definition onActivate (hs : InputHandlers) (now : Z) (h : Hook) : Hook :=
  let h := setPressStart (Some now) h in
  let h := match longPressTimerRef h with
           | Some t => clearTimeout t h
           | None => h
           end in
  let (t, h) := setTimeout LongPressTimer now LONG_PRESS_THRESHOLD h in
  let h := setLongRef (Some t) h in
  let h :=
    if (now - lastPressRef h <? DOUBLE_PRESS_WINDOW) && pendingPressRef h
    then
      let h := clearTimers h in
      let h := setPending false h in
      let h := dispatch hs DoublePress h in
      bumpPressCount h
    else
      let h := setPending true h in
      let h := match doublePressTimerRef h with
               | Some t => clearTimeout t h
               | None => h
               end in
      let (t, h) := setTimeout DoublePressTimer now DOUBLE_PRESS_WINDOW h in
      setDoubleRef (Some t) h in
  setLastPress now h.

(** The callback handed to [useInput], run at time [now]. *)
Definition onInput (hs : InputHandlers) (now : Z) (input : string) (key : Key)
           (h : Hook) : Hook :=
  if upArrow key || String.eqb input "k" then dispatch hs Up h
  else if downArrow key || String.eqb input "j" then dispatch hs Down h
  else if leftArrow key || String.eqb input "h" then dispatch hs Left h
  else if rightArrow key || String.eqb input "l" then dispatch hs Right h
  else if tab key then dispatch hs Tab h
  else if escape key || String.eqb input "q" then
    (if onEscape hs then dispatch hs Escape h else emit Exited h)
  else if return_ key || String.eqb input " " then onActivate hs now h
  else h.

Inductive Event :=
| KeyEvent (now : Z) (input : string) (key : Key)
| Tick (now : Z).

Definition step (hs : InputHandlers) (e : Event) (h : Hook) : Hook :=
  match e with
  | KeyEvent now input key => onInput hs now input key (advance hs now h)
  | Tick now => advance hs now h
  end.

Definition run (hs : InputHandlers) (es : list Event) (h : Hook) : Hook :=
  fold_left (fun h e => step hs e h) es h.

(** The cleanup of the unmount effect. *)
Definition unmount (h : Hook) : Hook := clearTimers h.

Definition noKey : Key := mkKey false false false false false false false.
Definition enterKey : Key := mkKey false false false false false false true.
Definition escapeKey : Key := mkKey false false false false false true false.

(** A press of Enter at time [now]. *)
Definition pressAt (now : Z) : Event := KeyEvent now "" enterKey.

Definition allHandlers : InputHandlers :=
  mkHandlers true true true true true true true true true true.
Definition noHandlers : InputHandlers :=
  mkHandlers false false false false false false false false false false.

(** The actions handed to [dispatch], oldest first. *)
Definition dispatched (h : Hook) : list InputAction :=
  flat_map (fun o => match o with Dispatched a => [a] | _ => [] end)
           (outputs h).

(** No arrow, [hjkl] or Tab: the key gets past the navigation branches. *)
Definition navFree (input : string) (key : Key) : bool :=
  negb (upArrow key || String.eqb input "k")
  && negb (downArrow key || String.eqb input "j")
  && negb (leftArrow key || String.eqb input "h")
  && negb (rightArrow key || String.eqb input "l")
  && negb (tab key).

(** The key reaches the Enter / Space branch. *)
Definition isActivate (input : string) (key : Key) : bool :=
  navFree input key
  && negb (escape key || String.eqb input "q")
  && (return_ key || String.eqb input " ").

(** The handler call that goes with a dispatch, if the caller gave one. *)
Definition calls (hs : InputHandlers) (a : InputAction) : list Output :=
  if handlerFor hs a then [Called a] else [].

(** The refs only hold handles that [setTimeout] has returned. *)
Definition freshRefs (h : Hook) : Prop :=
  (forall t, longPressTimerRef h = Some t -> (t < nextHandle h)%nat)
  /\ (forall t, doublePressTimerRef h = Some t -> (t < nextHandle h)%nat).

(** A press made at [t] waits to be resolved: both its timers are armed and
    the refs hold them. *)
Definition armed (h : Hook) (n : nat) (t : Z) : Prop :=
  timers h = [mkTimer n (t + LONG_PRESS_THRESHOLD) LongPressTimer;
              mkTimer (S n) (t + DOUBLE_PRESS_WINDOW) DoublePressTimer]
  /\ longPressTimerRef h = Some n
  /\ doublePressTimerRef h = Some (S n)
  /\ pendingPressRef h = true
  /\ pressStartRef h = Some t
  /\ lastPressRef h = t.

(** No press waits: no timer is armed. *)
Definition idle (h : Hook) : Prop :=
  timers h = [] /\ pendingPressRef h = false.

(** The shape of every state the hook can reach. *)
Definition wellFormed (h : Hook) : Prop :=
  freshRefs h /\ (idle h \/ exists n t, armed h n t).

(** The timer-related part of the state. *)
Definition sameTimers (h h' : Hook) : Prop :=
  timers h' = timers h
  /\ longPressTimerRef h' = longPressTimerRef h
  /\ doublePressTimerRef h' = doublePressTimerRef h
  /\ pendingPressRef h' = pendingPressRef h
  /\ pressStartRef h' = pressStartRef h
  /\ lastPressRef h' = lastPressRef h
  /\ nextHandle h' = nextHandle h.

End Input.

(** ** [useRingNav]: the wiring of the dispatcher to the index *)

Module RingNav.
Local Open Scope Z_scope.

(** The options of [useRingNav]; [wrap] defaults to [true].  For the two
    callbacks only their presence matters here. *)
Record Options := mkOptions {
  onSelect : bool;
  onBack : bool;
  wrap : bool
}.

(** The handlers handed to [useRingInput]: [onLeft], [onRight] and [onPress]
    are always functions, [onEscape] is [onBack] (possibly undefined). *)
Definition handlers (o : Options) : Input.InputHandlers :=
  Input.mkHandlers false false true true true false false false (onBack o) false.

Record State := mkState {
  index : Z;
  input : Input.Hook
}.

(** [useState(0)] next to a freshly mounted dispatcher. *)
Definition mounted : State := mkState 0 Input.mounted.

(** What a handler call does to the index: [onLeft] is [move(-1)], [onRight]
    is [move(1)]; [onPress] and [onEscape] call out and leave it. *)
Definition react (itemCount : Z) (o : Options) (out : Input.Output) (i : Z) : Z :=
  match out with
  | Input.Called Input.Left => Nav.move itemCount (wrap o) (-1) i
  | Input.Called Input.Right => Nav.move itemCount (wrap o) 1 i
  | _ => i
  end.

(** One event: the dispatcher handles it, and the handler calls it made are
    applied to the index in order. *)
Definition step (itemCount : Z) (o : Options) (e : Input.Event) (s : State)
  : State :=
  let hook := Input.step (handlers o) e (input s) in
  let fresh := skipn (List.length (Input.outputs (input s)))
                     (Input.outputs hook) in
  mkState (fold_left (fun i out => react itemCount o out i) fresh (index s))
          hook.

Definition run (itemCount : Z) (o : Options) (es : list Input.Event) (s : State)
  : State :=
  fold_left (fun s e => step itemCount o e s) es s.

Definition rightKey : Input.Key :=
  Input.mkKey false false false true false false false.
Definition leftKey : Input.Key :=
  Input.mkKey false false true false false false false.

End RingNav.

(** ** JavaScript strings, as lists of UTF-16 code units *)

Module JSString.
Local Open Scope Z_scope.

Definition Char : Type := N.
Definition JSString : Type := list Char.

(** The one-unit character U+2026 and the space. *)
Definition ellipsis : Char := 8230%N.
Definition space : Char := 32%N.

(** [s.slice(0, e)]: a negative [e] counts from the end. *)
Definition slice0 {A : Type} (s : list A) (e : Z) : list A :=
  let len := JS.length s in
  let e := if e <? 0 then Z.max (len + e) 0 else Z.min e len in
  firstn (Z.to_nat e) s.

(** [s.padEnd(n)] *)
Definition padEnd (s : JSString) (n : Z) : JSString :=
  s ++ repeat space (Z.to_nat (n - JS.length s)).

(** [s.length > maxLen ? `${s.slice(0, maxLen - 1)}…` : s], the truncation
    used by [Ring] and [MiniRing]. *)
Definition truncateTo (maxLen : Z) (s : JSString) : JSString :=
  if maxLen <? JS.length s then slice0 s (maxLen - 1) ++ [ellipsis] else s.

End JSString.

(** ** The other parts of [components/Ring.tsx] *)

Module RingParts.
Local Open Scope Z_scope.

(** The label of a slot in [renderItem]. *)
Definition itemLabel (width depth : Z) (label : JSString.JSString)
  : JSString.JSString :=
  let itemWidth := width - depth * 8 in
  let maxLabelLen := itemWidth - 6 in
  JSString.truncateTo maxLabelLen label.

(** The position dots: [None] for [null], else for each dot whether it is
    the active one. *)
Definition indicators (items : list View.RingItem) (animatedPosition : Q)
           (showIndicators : bool) : option (list bool) :=
  if negb showIndicators || (JS.length items <=? 1) then None
  else
    let maxDots := Z.min (JS.length items) 9 in
    let selectedPos := JS.round animatedPosition in
    Some (map (fun i => Z.of_nat i =? JS.rem selectedPos maxDots)
              (seq 0 (List.length (JSString.slice0 items maxDots)))).

End RingParts.

Module MiniRing.
Local Open Scope Z_scope.

(** [getItem(offset)] *)
Definition getItem (items : list JSString.JSString) (animatedPos : Q)
           (offset : Z) : option JSString.JSString :=
  let idx := JS.rem (JS.rem (JS.round animatedPos + offset) (JS.length items)
                     + JS.length items) (JS.length items) in
  JS.get items idx.

Definition truncate (width : Z) (s : JSString.JSString) : JSString.JSString :=
  let maxLen := (width - 10) / 3 in
  JSString.truncateTo maxLen s.

End MiniRing.

Module VerticalRing.
Local Open Scope Z_scope.

Record Entry := mkEntry {
  item : option View.RingItem;
  distance : Z;
  actualIndex : Z
}.

(** The values of [i] in [for (i = 0; i < maxVisible; i++)]. *)
Definition rows (maxVisible : Z) : list Z :=
  map Z.of_nat (seq 0 (Z.to_nat maxVisible)).

Definition visibleItems (items : list View.RingItem) (animatedPos : Q)
           (maxVisible : Z) : list Entry :=
  let halfVisible := maxVisible / 2 in
  let startIdx := JS.round animatedPos - halfVisible in
  map (fun i =>
         let idx := startIdx + i in
         let idx := JS.rem (JS.rem idx (JS.length items) + JS.length items)
                           (JS.length items) in
         let distance := Z.abs (i - halfVisible) in
         mkEntry (JS.get items idx) distance idx)
      (rows maxVisible).

(** The label of a row: cut with an ellipsis or padded to the column. *)
Definition rowLabel (width : Z) (label : JSString.JSString)
  : JSString.JSString :=
  let maxLabelLen := width - 4 in
  if maxLabelLen <? JS.length label
  then JSString.slice0 label (maxLabelLen - 1) ++ [JSString.ellipsis]
  else JSString.padEnd label maxLabelLen.

End VerticalRing.

(** ** [interpolate] *)

Module Interp.
Local Open Scope Q_scope.

(** [None] would be a lookup of [undefined] (a [NaN] result). *)
Definition interpolate (values : list Q) (position : Q) : option Q :=
  let len := JS.length values in
  if (len =? 0)%Z then Some 0
  else if (len =? 1)%Z then JS.get values 0
  else
    let index := Qfloor position in
    let fraction := position - inject_Z index in
    let i1 := JS.rem (JS.rem index len + len) len in
    let i2 := JS.rem (JS.rem (index + 1) len + len) len in
    match JS.get values i1, JS.get values i2 with
    | Some v1, Some v2 => Some (v1 + (v2 - v1) * fraction)
    | _, _ => None
    end.

End Interp.

(** ** [useTypewriter] *)

Module Typewriter.
Local Open Scope Z_scope.

(** The [displayed] state cell, the index ref, the start timer (with the
    [text] its callback has captured) and the running intervals (each with
    the [text] of the effect run that made it). *)
Record Hook := mkHook {
  displayed : JSString.JSString;
  indexRef : Z;
  startTimer : option JSString.JSString;
  intervals : list JSString.JSString
}.

Definition mounted : Hook := mkHook [] 0 None [].

(** The cleanup of an effect run: [clearTimeout(startTimer)]. *)
Definition cleanup (h : Hook) : Hook :=
  mkHook (displayed h) (indexRef h) None (intervals h).

(** A run of the effect for [text] (after the cleanup of the previous run). *)
Definition effect (text : JSString.JSString) (h : Hook) : Hook :=
  mkHook [] 0 (Some text) (intervals (cleanup h)).

(** The start timer runs: it starts the interval.  The function its callback
    returns is dropped by [setTimeout]. *)
Definition startFires (h : Hook) : Hook :=
  match startTimer h with
  | Some text => mkHook (displayed h) (indexRef h) None (intervals h ++ [text])
  | None => h
  end.

Fixpoint removeNth {A : Type} (n : nat) (l : list A) : list A :=
  match n, l with
  | _, [] => []
  | O, _ :: l' => l'
  | S n', x :: l' => x :: removeNth n' l'
  end.

(** The interval number [k] ticks. *)
Definition intervalFires (k : nat) (h : Hook) : Hook :=
  match nth_error (intervals h) k with
  | None => h
  | Some text =>
      if indexRef h <? JS.length text
      then mkHook (JSString.slice0 text (indexRef h + 1)) (indexRef h + 1)
                  (startTimer h) (intervals h)
      else mkHook (displayed h) (indexRef h) (startTimer h)
                  (removeNth k (intervals h))
  end.

(** [n] ticks of the interval number [k]. *)
Fixpoint ticks (n : nat) (k : nat) (h : Hook) : Hook :=
  match n with
  | O => h
  | S n' => ticks n' k (intervalFires k h)
  end.

End Typewriter.

(** ** What a key means to the dispatcher *)

Module Keys.

(** The branch of the [useInput] callback a key takes: a navigation action or
    Tab, the Escape / quit branch, the Enter / Space branch, or none. *)
Inductive Meaning :=
| Act (a : Input.InputAction)
| Quit
| Activate
| Ignored.

Definition meaning (input : string) (key : Input.Key) : Meaning :=
  if Input.upArrow key || String.eqb input "k" then Act Input.Up
  else if Input.downArrow key || String.eqb input "j" then Act Input.Down
  else if Input.leftArrow key || String.eqb input "h" then Act Input.Left
  else if Input.rightArrow key || String.eqb input "l" then Act Input.Right
  else if Input.tab key then Act Input.Tab
  else if Input.escape key || String.eqb input "q" then Quit
  else if Input.return_ key || String.eqb input " " then Activate
  else Ignored.

(** [press] and [doublePress], the two actions that bump [pressCount]. *)
Definition isPress (a : Input.InputAction) : bool :=
  match a with
  | Input.Press | Input.DoublePress => true
  | _ => false
  end.

(** What the hook is ever seen to do: [longPress] is not among the
    dispatched actions, a handler is only called when the caller gave it, and
    [exit()] only happens without an [onEscape]. *)
Definition allowed (hs : Input.InputHandlers) (o : Input.Output) : Prop :=
  match o with
  | Input.Dispatched a => a <> Input.LongPress
  | Input.Called a => Input.handlerFor hs a = true /\ a <> Input.LongPress
  | Input.Exited => Input.onEscape hs = false
  end.

(** The [InputState] the hook returns, read off the dispatched actions. *)
Definition summarises (h : Input.Hook) : Prop :=
  Input.lastAction (Input.state h)
    = last (map Some (Input.dispatched h)) None
  /\ Input.pressCount (Input.state h)
     = Z.of_nat (List.length (filter isPress (Input.dispatched h)))
  /\ Input.isLongPressing (Input.state h) = false.

End Keys.

(** ** Two of the display widgets that run on the animation hooks *)

Module Widgets.
Local Open Scope Z_scope.

(** [CHARS.blocks] and [CHARS.progress.barEmpty], as code units. *)
Definition full : JSString.Char := 9608%N.
Definition dark : JSString.Char := 9619%N.
Definition medium : JSString.Char := 9618%N.
Definition light : JSString.Char := 9617%N.







(** [actualPos] of [LoadingBar] at a frame count. *)
Definition loadingPos (frame width : Z) : Z :=
  let pos := JS.rem (frame / 3) (width * 2) in
  if width <? pos then width * 2 - pos else pos.

Definition loadingCell (actualPos i : Z) : JSString.Char :=
  let dist := Z.abs (i - actualPos) in
  if dist =? 0 then full
  else if dist =? 1 then dark
  else if dist =? 2 then medium
  else if dist =? 3 then light
  else JSString.space.

(** The bar of [LoadingBar]: [Array.from({ length: width }, ...).join("")]. *)
Definition loadingBar (frame width : Z) : JSString.JSString :=
  map (fun i => loadingCell (loadingPos frame width) (Z.of_nat i))
      (seq 0 (Z.to_nat width)).

End Widgets.

(** * Properties *)

(** ** Integer helpers *)

Section JSFacts.
Local Open Scope Z_scope.

(** The double remainder [((x % n) + n) % n] is the mathematical residue. *)
Lemma rem_rem_modulo (x n : Z) :
  0 < n -> JS.rem (JS.rem x n + n) n = x mod n.
Proof.
  intros Hn. unfold JS.rem.
  pose proof (Z.rem_bound_abs x n ltac:(lia)) as Hb.
  assert (Hr : 0 <= Z.rem x n + n) by lia.
  rewrite (Z.rem_mod_nonneg (Z.rem x n + n) n Hr Hn).
  rewrite <- (Z.mod_unique (Z.rem x n + n) n (x / n - Z.quot x n + 1) (x mod n)).
  - reflexivity.
  - left. apply Z.mod_pos_bound; exact Hn.
  - pose proof (Z.quot_rem' x n). pose proof (Z.div_mod x n ltac:(lia)). nia.
Qed.

Lemma rem_rem_range (x n : Z) :
  0 < n -> 0 <= JS.rem (JS.rem x n + n) n < n.
Proof.
  intros Hn. rewrite rem_rem_modulo by exact Hn.
  apply Z.mod_pos_bound; exact Hn.
Qed.

(** [Math.round] of an integral number is that number. *)
Lemma round_inject_Z (c : Z) : JS.round (inject_Z c) = c.
Proof.
  unfold JS.round.
  pose proof (Qfloor_le (inject_Z c + (1 # 2))) as Hlo.
  pose proof (Qlt_floor (inject_Z c + (1 # 2))) as Hhi.
  set (f := Qfloor (inject_Z c + (1 # 2))) in *.
  unfold Qle, Qlt, Qplus, inject_Z in Hlo, Hhi. simpl in Hlo, Hhi. lia.
Qed.

Lemma get_in_range {A : Type} (arr : list A) (i : Z) :
  0 <= i < JS.length arr ->
  JS.get arr i = nth_error arr (Z.to_nat i) /\ JS.get arr i <> None.
Proof.
  intros [Hlo Hhi]. unfold JS.get, JS.length in *.
  destruct (Z.ltb_spec i 0) as [Hneg | _]; [lia |].
  split; [reflexivity |].
  apply nth_error_Some. lia.
Qed.

Lemma get_negative {A : Type} (arr : list A) (i : Z) :
  i < 0 -> JS.get arr i = None.
Proof.
  intros Hi. unfold JS.get.
  destruct (Z.ltb_spec i 0); [reflexivity | lia].
Qed.

End JSFacts.

(** ** Ring navigation: [move] *)

Section NavFacts.
Local Open Scope Z_scope.

Lemma move_wrap_modulo (count index delta : Z) :
  0 < count -> Nav.move count true delta index = (index + delta) mod count.
Proof. intros Hc. unfold Nav.move. apply rem_rem_modulo; exact Hc. Qed.

Lemma move_in_range (count index delta : Z) (wrap : bool) :
  0 < count -> 0 <= Nav.move count wrap delta index < count.
Proof.
  intros Hc. destruct wrap.
  - rewrite move_wrap_modulo by exact Hc. apply Z.mod_pos_bound; exact Hc.
  - unfold Nav.move. lia.
Qed.

(** C5.  For a non-empty ring ([count > 0]), an index in range and any
    integer [delta], [move] yields the residue
    [((index + delta) mod count + count) mod count] when [wrap] is on (read
    with JavaScript's remainder as well as with the mathematical one) and
    [max 0 (min (count - 1) (index + delta))] when it is off; the result is
    an index of the ring.  [move(-1)] at index 0 over five items gives 4
    with wrap and 0 without. *)
Theorem move_spec (count index delta : Z) :
  0 < count -> 0 <= index < count ->
  Nav.move count true delta index
    = JS.rem (JS.rem (index + delta) count + count) count
  /\ Nav.move count true delta index = Nav.wrapSpec count index delta
  /\ Nav.move count false delta index = Nav.clampSpec count index delta
  /\ (forall wrap, 0 <= Nav.move count wrap delta index < count)
  /\ Nav.move 5 true (-1) 0 = 4
  /\ Nav.move 5 false (-1) 0 = 0.
Proof.
  intros Hc Hi.
  split; [reflexivity |].
  split.
  { rewrite move_wrap_modulo by exact Hc. unfold Nav.wrapSpec.
    pose proof (Z.mod_pos_bound (index + delta) count Hc) as Hb.
    apply (Z.mod_unique _ count 1); lia. }
  split; [reflexivity |].
  split; [intros wrap; apply move_in_range; exact Hc |].
  split; reflexivity.
Qed.

Lemma move_spec_witness :
  Nav.move 7 true (-10) 2 = 6 /\ Nav.move 7 false (-10) 2 = 0.
Proof.
  destruct (move_spec 7 2 (-10) ltac:(lia) ltac:(lia))
    as (_ & Hw & Hcl & _).
  split; [rewrite Hw | rewrite Hcl]; reflexivity.
Defined.

End NavFacts.

(** ** The visible window *)

Section ViewFacts.
Local Open Scope Z_scope.

Lemma odd_window (w : Z) : Z.odd w = true -> 2 * (w / 2) + 1 = w.
Proof.
  intros Ho. apply Z.odd_spec in Ho. destruct Ho as [m Hm]. subst w.
  replace ((2 * m + 1) / 2) with m; [reflexivity |].
  apply (Z.div_unique _ 2 m 1); lia.
Qed.

Lemma offsets_length (h : Z) :
  List.length (View.offsets h) = Z.to_nat (2 * h + 1).
Proof. unfold View.offsets. rewrite length_map, length_seq. reflexivity. Qed.

Lemma offsets_nth (h : Z) (k : nat) :
  (k < Z.to_nat (2 * h + 1))%nat ->
  nth_error (View.offsets h) k = Some (Z.of_nat k - h).
Proof.
  intros Hk. unfold View.offsets.
  rewrite nth_error_map, nth_error_seq.
  destruct (Nat.ltb_spec k (Z.to_nat (2 * h + 1))) as [_ | Hge]; [| lia].
  reflexivity.
Qed.

(** Exactly one value of the loop variable is 0. *)
Lemma seq_one_hit (a s n : nat) :
  (s <= a < s + n)%nat ->
  List.length (filter (Nat.eqb a) (seq s n)) = 1%nat.
Proof.
  revert s. induction n as [| n IH]; intros s Hs; [lia |].
  simpl. destruct (Nat.eqb_spec a s) as [-> | Hne].
  - simpl. f_equal.
    assert (Hnone : forall m t, (s < t)%nat ->
                                filter (Nat.eqb s) (seq t m) = []).
    { induction m as [| m IHm]; intros t Ht; [reflexivity |].
      simpl. destruct (Nat.eqb_spec s t); [lia |]. apply IHm. lia. }
    rewrite Hnone by lia. reflexivity.
  - apply IH. lia.
Qed.

Lemma one_center (items : list View.RingItem) (pos : Q) (h : Z) :
  0 <= h ->
  List.length (filter (fun s => View.depth s =? 0)
                      (map (View.slotAt items pos) (View.offsets h))) = 1%nat.
Proof.
  intros Hh. unfold View.offsets. rewrite map_map.
  assert (Hswap : forall (l : list nat),
    List.length (filter (fun s => View.depth s =? 0)
       (map (fun k => View.slotAt items pos (Z.of_nat k - h)) l))
    = List.length (filter (Nat.eqb (Z.to_nat h)) l)).
  { induction l as [| k l IH]; [reflexivity |].
    simpl. destruct (Z.eqb_spec (Z.abs (Z.of_nat k - h)) 0) as [He | Hne];
      destruct (Nat.eqb_spec (Z.to_nat h) k) as [Hk | Hk];
      simpl; try lia. }
  rewrite Hswap.
  apply seq_one_hit. lia.
Qed.

Lemma slotAt_spec (items : list View.RingItem) (pos : Q) (o : Z) :
  0 < JS.length items ->
  let N := JS.length items in
  let s := View.slotAt items pos o in
  View.offset s = o
  /\ View.depth s = Z.abs o
  /\ View.index s = JS.rem (JS.rem (JS.round pos + o) N + N) N
  /\ View.index s = (JS.round pos + o) mod N
  /\ 0 <= View.index s < N
  /\ View.item s = nth_error items (Z.to_nat (View.index s))
  /\ View.item s <> None.
Proof.
  intros HN N s. subst s. unfold View.slotAt, View.wrapIndex. simpl.
  fold N.
  pose proof (rem_rem_range (JS.round pos + o) N HN) as Hr.
  repeat split; try lia.
  - apply rem_rem_modulo; exact HN.
  - apply (get_in_range items). exact Hr.
  - apply (get_in_range items). exact Hr.
Qed.

(** C3.  For an odd, positive window size that does not exceed the item
    count, and any animated position, the window builder returns exactly
    [windowSize] slots; exactly one of them has depth 0; every source index
    lies in [0, itemCount); and the slot number [k] (from 0) is the one at
    offset [o = k - floor(windowSize / 2)], with source index
    [((round(position) + o) % N + N) % N] (which is the residue of
    [round(position) + o] modulo [N]), depth [|o|] and a defined item.  Over
    five items, window 5, position 0, the offsets -2..2 map to the source
    indices 3, 4, 0, 1, 2. *)
Theorem visibleSlots_spec (items : list View.RingItem) (animatedPosition : Q)
        (windowSize : Z) :
  let N := JS.length items in
  let slots := View.visibleSlots items animatedPosition windowSize in
  0 < windowSize -> Z.odd windowSize = true -> windowSize <= N ->
  JS.length slots = windowSize
  /\ List.length (filter (fun s => View.depth s =? 0) slots) = 1%nat
  /\ Forall (fun s => 0 <= View.index s < N) slots
  /\ (forall k, 0 <= k < windowSize ->
       exists s,
         JS.get slots k = Some s
         /\ View.offset s = k - windowSize / 2
         /\ View.index s
            = JS.rem (JS.rem (JS.round animatedPosition + View.offset s) N + N) N
         /\ View.index s = (JS.round animatedPosition + View.offset s) mod N
         /\ View.depth s = Z.abs (View.offset s)
         /\ View.item s = nth_error items (Z.to_nat (View.index s))
         /\ View.item s <> None)
  /\ map (fun s => (View.offset s, View.index s))
         (View.visibleSlots View.fiveItems 0 5)
     = [(-2, 3); (-1, 4); (0, 0); (1, 1); (2, 2)].
Proof.
  intros N slots Hw Hodd HN.
  pose proof (odd_window windowSize Hodd) as Hhalf.
  assert (Hh : 0 <= windowSize / 2) by lia.
  assert (HN0 : 0 < JS.length items) by (fold N; lia).
  assert (Hlen : List.length slots = Z.to_nat windowSize).
  { subst slots. unfold View.visibleSlots.
    rewrite length_map, offsets_length, Hhalf. reflexivity. }
  split; [unfold JS.length; rewrite Hlen; lia |].
  split; [apply one_center; exact Hh |].
  split.
  { subst slots. unfold View.visibleSlots. apply Forall_map, Forall_forall.
    intros o _. apply (slotAt_spec items animatedPosition o HN0). }
  split; [| reflexivity].
  intros k Hk.
  exists (View.slotAt items animatedPosition (k - windowSize / 2)).
  destruct (slotAt_spec items animatedPosition (k - windowSize / 2) HN0)
    as (Hoff & Hdep & Hidx & Hmod & _ & Hitem & Hdef).
  fold N in Hidx, Hmod.
  rewrite Hoff. repeat split; try assumption.
  unfold JS.get. destruct (Z.ltb_spec k 0) as [Hneg | _]; [lia |].
  subst slots. unfold View.visibleSlots.
  rewrite nth_error_map, offsets_nth by lia.
  simpl. rewrite Z2Nat.id by lia. reflexivity.
Qed.

Lemma visibleSlots_spec_witness :
  JS.length (View.visibleSlots View.fiveItems (7 # 2) 3) = 3
  /\ map View.index (View.visibleSlots View.fiveItems (7 # 2) 3) = [3; 4; 0].
Proof.
  split.
  - apply (visibleSlots_spec View.fiveItems (7 # 2) 3);
      [lia | reflexivity | unfold JS.length; simpl; lia].
  - reflexivity.
Defined.

(** The window never holds an undefined item, whatever the position. *)
Lemma visibleSlots_defined (items : list View.RingItem) (pos : Q) (w : Z) :
  0 < JS.length items ->
  Forall (fun s => View.item s <> None) (View.visibleSlots items pos w).
Proof.
  intros HN. unfold View.visibleSlots. apply Forall_map, Forall_forall.
  intros o _. apply (slotAt_spec items pos o HN).
Qed.

(** The position of the first render is the target index as it was given. *)
Lemma firstRender_position (items : list View.RingItem) (c : option Z) :
  Anim.useStepAnimation (Anim.mount (Ring.animProps items c 0))
  = inject_Z (View.targetIndex c 0).
Proof. reflexivity. Qed.

(** The first run of the effect leaves the position on the target. *)
Lemma effect_after_mount (p : Anim.Props) (now : Z) :
  Anim.useStepAnimation (Anim.effect p now (Anim.mount p)) = Anim.target p.
Proof.
  unfold Anim.effect, Anim.useStepAnimation.
  destruct (Qlt_le_dec _ _); reflexivity.
Qed.

(** C8 (the code departs from it).  With a negative controlled index that is
    not a multiple of the item count, the first render looks the selected
    item up at a negative array index: [selected] is undefined, and it stays
    so after the animator's effect has run; every slot of the window holds
    an item all the same. *)
Theorem selectedItem_undefined (items : list View.RingItem) (c w : Z) :
  0 < JS.length items -> c < 0 -> JS.rem c (JS.length items) <> 0 ->
  Ring.selected (Ring.firstRender items (Some c) w) = None
  /\ (forall now,
       Ring.selected
         (Ring.render items w
            (Anim.effect (Ring.animProps items (Some c) 0) now
               (Anim.mount (Ring.animProps items (Some c) 0)))) = None)
  /\ Forall (fun s => View.item s <> None)
            (Ring.slots (Ring.firstRender items (Some c) w)).
Proof.
  intros HN Hc Hrem.
  assert (Hsel : View.selectedItem items (inject_Z c) = None).
  { unfold View.selectedItem. rewrite round_inject_Z. apply get_negative.
    unfold JS.rem in *.
    pose proof (Z.rem_nonpos c (JS.length items) ltac:(lia) ltac:(lia)). lia. }
  split; [| split].
  - unfold Ring.firstRender, Ring.render, Ring.selected.
    rewrite firstRender_position. exact Hsel.
  - intros now. unfold Ring.render, Ring.selected.
    rewrite effect_after_mount. exact Hsel.
  - apply visibleSlots_defined. exact HN.
Qed.

Lemma selectedItem_undefined_witness :
  Ring.selected (Ring.firstRender View.fiveItems (Some (-1)) 5) = None.
Proof.
  apply (selectedItem_undefined View.fiveItems (-1) 5);
    [unfold JS.length; simpl; lia | lia | discriminate].
Defined.

End ViewFacts.

(** ** The circular step animator *)

Section AnimFacts.
Local Open Scope Q_scope.

(** Linear arithmetic over [Q] in the presence of [_ / 2]. *)
Ltac qlra :=
  unfold Qdiv in *; change (/ 2) with (1 # 2) in *; lra.

(** C2.  For [total > 0] and [current], [target] in [0, total), the travel
    delta of the step animator is [target - current], moved by one [total]
    towards zero when it is longer than half the ring, and its absolute
    value is at most [total / 2]. *)
Theorem shortestDelta_bound (total current target : Q) :
  0 < total ->
  Anim.inRange total current -> Anim.inRange total target ->
  Qabs (Anim.shortestDelta target current total) <= total / 2
  /\ (Anim.shortestDelta target current total == target - current
      \/ Anim.shortestDelta target current total == target - current - total
      \/ Anim.shortestDelta target current total == target - current + total).
Proof.
  intros Ht [Hc0 Hc1] [Ht0 Ht1]. unfold Anim.shortestDelta.
  destruct (Qlt_le_dec (total / 2) (Qabs (target - current))) as [Hfar | Hnear].
  - destruct (Qlt_le_dec 0 (target - current)) as [Hpos | Hneg].
    + split; [| right; left; reflexivity].
      revert Hfar. apply Qabs_case; intros Hs Hfar;
        apply Qabs_case; intros _; qlra.
    + split; [| right; right; reflexivity].
      revert Hfar. apply Qabs_case; intros Hs Hfar;
        apply Qabs_case; intros _; qlra.
  - split; [exact Hnear | left; reflexivity].
Qed.

Lemma shortestDelta_bound_witness :
  Qabs (Anim.shortestDelta 4 0 5) <= 5 / 2.
Proof.
  apply (shortestDelta_bound 5 0 4); unfold Anim.inRange; lra.
Defined.

Lemma inject_nat_succ (n : nat) :
  inject_Z (Z.of_nat (S n)) == inject_Z (Z.of_nat n) + 1.
Proof.
  rewrite Nat2Z.inj_succ. unfold Z.succ. rewrite inject_Z_plus. reflexivity.
Qed.

(** The first loop ends as soon as the fuel covers [-v / total]. *)
Lemma addWhileNegative_ends (total : Q) (fuel : nat) (v : Q) :
  0 < total ->
  - v <= inject_Z (Z.of_nat fuel) * total ->
  exists r, Anim.addWhileNegative (S fuel) total v = Some r
            /\ 0 <= r /\ (v < 0 -> r < total) /\ (0 <= v -> r = v).
Proof.
  intros Ht. revert v. induction fuel as [| fuel IH]; intros v Hv.
  - change (inject_Z (Z.of_nat 0)) with 0 in Hv.
    cbn [Anim.addWhileNegative].
    destruct (Qlt_le_dec v 0) as [Hneg | Hpos]; [lra |].
    exists v. split; [reflexivity |]. split; [exact Hpos |].
    split; [intros; lra | reflexivity].
  - rewrite inject_nat_succ in Hv.
    cbn [Anim.addWhileNegative].
    destruct (Qlt_le_dec v 0) as [Hneg | Hpos].
    + destruct (IH (v + total)) as (r & Hr & Hr0 & Hlt & Heq); [lra |].
      exists r. split; [exact Hr |]. split; [exact Hr0 |].
      split; [| intros; lra].
      intros _. destruct (Qlt_le_dec (v + total) 0) as [Hn | Hp].
      * apply Hlt; exact Hn.
      * rewrite (Heq Hp). lra.
    + exists v. split; [reflexivity |]. split; [exact Hpos |].
      split; [intros; lra | reflexivity].
Qed.

(** The second loop ends as soon as the fuel covers [v / total]. *)
Lemma subWhileAtLeast_ends (total : Q) (fuel : nat) (v : Q) :
  0 < total -> 0 <= v ->
  v < inject_Z (Z.of_nat (S fuel)) * total ->
  exists r, Anim.subWhileAtLeast (S fuel) total v = Some r
            /\ Anim.inRange total r.
Proof.
  intros Ht. revert v. induction fuel as [| fuel IH]; intros v Hv0 Hv.
  - change (inject_Z (Z.of_nat 1)) with 1 in Hv.
    cbn [Anim.subWhileAtLeast].
    destruct (Qlt_le_dec v total) as [Hlt | Hge]; [| lra].
    exists v. split; [reflexivity | split; assumption].
  - rewrite inject_nat_succ in Hv.
    cbn [Anim.subWhileAtLeast].
    destruct (Qlt_le_dec v total) as [Hlt | Hge].
    + exists v. split; [reflexivity | split; assumption].
    + apply IH; lra.
Qed.

Lemma loopBound_covers (total v : Q) :
  0 < total ->
  Qabs v <= inject_Z (Z.of_nat (Z.to_nat (Qceiling (Qabs v / total)))) * total.
Proof.
  intros Ht.
  assert (Hq : 0 <= Qabs v / total).
  { apply Qle_shift_div_l; [exact Ht |]. pose proof (Qabs_nonneg v). lra. }
  pose proof (Qle_ceiling (Qabs v / total)) as Hc.
  assert (Hz : (0 <= Qceiling (Qabs v / total))%Z).
  { destruct (Z.le_gt_cases 0 (Qceiling (Qabs v / total))) as [H | H];
      [exact H | exfalso].
    assert (inject_Z (Qceiling (Qabs v / total)) < 0)
      by (rewrite Zlt_Qlt in H; exact H).
    lra. }
  rewrite Z2Nat.id by exact Hz.
  assert (Hm : Qabs v == Qabs v / total * total)
    by (field; intros E; rewrite E in Ht; discriminate).
  rewrite Hm at 1.
  apply Qmult_le_compat_r; [exact Hc | lra].
Qed.

(** The normalisation terminates and lands in [0, total). *)
Lemma normalize_ends (total v : Q) :
  0 < total ->
  exists r, Anim.normalize total v = Some r /\ Anim.inRange total r.
Proof.
  intros Ht. unfold Anim.normalize, Anim.loopBound.
  pose proof (loopBound_covers total v Ht) as Hcov.
  set (n := Z.to_nat (Qceiling (Qabs v / total))) in *.
  assert (Hn : 0 <= inject_Z (Z.of_nat n))
    by (change 0 with (inject_Z 0); rewrite <- Zle_Qle; lia).
  destruct (addWhileNegative_ends total n v Ht) as (r & Hr & Hr0 & Hlt & Heq).
  { revert Hcov. apply Qabs_case; intros; lra. }
  rewrite Hr.
  apply subWhileAtLeast_ends; [exact Ht | exact Hr0 |].
  rewrite inject_nat_succ.
  destruct (Qlt_le_dec v 0) as [Hneg | Hpos].
  - specialize (Hlt Hneg). nra.
  - rewrite (Heq Hpos). revert Hcov. apply Qabs_case; intros; lra.
Qed.








End AnimFacts.

(** ** The easing table *)

Section EaseFacts.
Local Open Scope R_scope.

Ltac ease_endpoint :=
  unfold Ease.linear, Ease.inQuad, Ease.outQuad, Ease.inOutQuad, Ease.inCubic,
    Ease.outCubic, Ease.inOutCubic, Ease.outBack, Ease.smoothStep, Ease.snap;
  cbv zeta; try destruct (Rlt_dec _ _); simpl; lra.

Lemma outElastic_zero : Ease.outElastic 0 = 0.
Proof.
  unfold Ease.outElastic. cbv zeta.
  replace (-10 * 0) with 0 by ring.
  rewrite Rpower_O by lra.
  replace ((0 - 3 / 10 / 4) * (2 * PI) / (3 / 10)) with (- (PI / 2)) by field.
  rewrite sin_neg, sin_PI2. ring.
Qed.

(** At [t = 1] the sine is taken at [37 PI / 6], where it is one half. *)
Lemma outElastic_phase_one :
  sin ((1 - 3 / 10 / 4) * (2 * PI) / (3 / 10)) = 1 / 2.
Proof.
  replace ((1 - 3 / 10 / 4) * (2 * PI) / (3 / 10))
    with (PI / 6 + 2 * INR 3 * PI) by (simpl; field).
  rewrite sin_period. exact sin_PI6.
Qed.

Lemma outElastic_scale_one : Rpower 2 (-10 * 1) = / 1024.
Proof.
  replace (-10 * 1) with (- INR 10) by (simpl; ring).
  rewrite Rpower_Ropp, Rpower_pow by lra.
  f_equal. simpl. ring.
Qed.

(** Every easing maps 0 to 0. *)
Lemma ease_zero (f : Ease.EaseFn) : Ease.ease f 0 = 0.
Proof.
  destruct f; simpl; try (ease_endpoint); exact outElastic_zero.
Qed.

(** Every easing but [outElastic] maps 1 to 1; [outBack] does. *)
Lemma ease_one (f : Ease.EaseFn) :
  f <> Ease.OutElastic -> Ease.ease f 1 = 1.
Proof.
  intros Hf. destruct f; simpl; try (ease_endpoint). contradiction.
Qed.

(** C7 (the code departs from it).  [outElastic] does not end on 1: at
    [t = 1] it returns [1 + 1/2048 = 1.00048828125]. *)
Theorem outElastic_one :
  Ease.ease Ease.OutElastic 1 = 1 + 1 / 2048
  /\ Ease.ease Ease.OutElastic 1 <> 1.
Proof.
  assert (H : Ease.ease Ease.OutElastic 1 = 1 + 1 / 2048).
  { simpl. unfold Ease.outElastic. cbv zeta.
    rewrite outElastic_phase_one, outElastic_scale_one. field. }
  split; [exact H | rewrite H; lra].
Qed.

End EaseFacts.

(** ** The input dispatcher *)

Section InputFacts.
Local Open Scope Z_scope.
Import Input.

Variable hs : InputHandlers.

Lemma dispatch_outputs (a : InputAction) (h : Hook) :
  outputs (dispatch hs a h) = outputs h ++ Dispatched a :: calls hs a.
Proof.
  unfold dispatch, calls. destruct (handlerFor hs a); simpl.
  - rewrite <- app_assoc. reflexivity.
  - reflexivity.
Qed.

Lemma dispatch_refs (a : InputAction) (h : Hook) :
  timers (dispatch hs a h) = timers h
  /\ longPressTimerRef (dispatch hs a h) = longPressTimerRef h
  /\ doublePressTimerRef (dispatch hs a h) = doublePressTimerRef h
  /\ pendingPressRef (dispatch hs a h) = pendingPressRef h
  /\ pressStartRef (dispatch hs a h) = pressStartRef h
  /\ lastPressRef (dispatch hs a h) = lastPressRef h
  /\ nextHandle (dispatch hs a h) = nextHandle h.
Proof. unfold dispatch. destruct (handlerFor hs a); simpl; tauto. Qed.

Lemma succ_eqb_self (n : nat) : Nat.eqb (S n) n = false.
Proof. apply Nat.eqb_neq. lia. Qed.

Lemma self_eqb_succ (n : nat) : Nat.eqb n (S n) = false.
Proof. apply Nat.eqb_neq. lia. Qed.

Lemma lt_eqb (n m : nat) : (n < m)%nat -> Nat.eqb n m = false.
Proof. intros H. apply Nat.eqb_neq. lia. Qed.

Lemma gt_eqb (n m : nat) : (n < m)%nat -> Nat.eqb m n = false.
Proof. intros H. apply Nat.eqb_neq. lia. Qed.

(** Evaluate [clearTimeout]'s filter over a concrete queue. *)
Ltac sweep :=
  repeat (progress (cbn [filter handle negb app];
                    rewrite ?Nat.eqb_refl, ?succ_eqb_self, ?self_eqb_succ)).

(** Time passing over a state with no armed timer changes nothing. *)
Lemma advance_idle (now : Z) (h : Hook) :
  timers h = [] -> advance hs now h = h.
Proof. intros Ht. unfold advance. rewrite Ht. reflexivity. Qed.

(** Before the double-press window of an armed press closes, nothing fires. *)
Lemma advance_armed_early (now : Z) (h : Hook) (n : nat) (t : Z) :
  armed h n t -> now < t + DOUBLE_PRESS_WINDOW -> advance hs now h = h.
Proof.
  intros (Ht & _) Hnow. unfold advance. rewrite Ht.
  cbn [List.length runTimers]. rewrite Ht. unfold nextDue.
  cbn [filter deadline]. unfold DOUBLE_PRESS_WINDOW, LONG_PRESS_THRESHOLD in *.
  destruct (Z.leb_spec (t + 400) now); [lia |].
  destruct (Z.leb_spec (t + 250) now); [lia |].
  reflexivity.
Qed.

(** Once the window has closed, the double-press timer is the next to run,
    whether the long-press timer is due or not. *)
Lemma nextDue_armed (now : Z) (n : nat) (t : Z) :
  t + DOUBLE_PRESS_WINDOW <= now ->
  nextDue now [mkTimer n (t + LONG_PRESS_THRESHOLD) LongPressTimer;
               mkTimer (S n) (t + DOUBLE_PRESS_WINDOW) DoublePressTimer]
  = Some (mkTimer (S n) (t + DOUBLE_PRESS_WINDOW) DoublePressTimer).
Proof.
  intros Hnow. unfold nextDue. cbn [filter deadline].
  unfold DOUBLE_PRESS_WINDOW, LONG_PRESS_THRESHOLD in *.
  destruct (Z.leb_spec (t + 250) now); [| lia].
  destruct (Z.leb_spec (t + 400) now); cbn [earliest deadline];
    [| reflexivity].
  destruct (Z.leb_spec (t + 400) (t + 250)); [lia | reflexivity].
Qed.

(** It cancels the long-press timer and dispatches [press]. *)
Lemma advance_armed_late (now : Z) (h : Hook) (n : nat) (t : Z) :
  armed h n t -> t + DOUBLE_PRESS_WINDOW <= now ->
  let h' := advance hs now h in
  idle h'
  /\ outputs h' = outputs h ++ Dispatched Press :: calls hs Press
  /\ longPressTimerRef h' = longPressTimerRef h
  /\ doublePressTimerRef h' = doublePressTimerRef h
  /\ nextHandle h' = nextHandle h.
Proof.
  intros (Ht & Hl & Hd & Hp & Hs & _) Hnow.
  set (h1 := setPending false
               (bumpPressCount (dispatch hs Press
                  (clearTimeout n (clearTimeout (S n) h))))).
  destruct (dispatch_refs Press (clearTimeout n (clearTimeout (S n) h)))
    as (E1 & E2 & E3 & _ & _ & _ & E7).
  assert (Hh1 : timers h1 = []).
  { subst h1. cbn [setPending bumpPressCount setState timers].
    rewrite E1. cbn [clearTimeout timers]. rewrite Ht. sweep.
    reflexivity. }
  assert (Hadv : advance hs now h = h1).
  { unfold advance. rewrite Ht. cbn [List.length runTimers].
    rewrite Ht, (nextDue_armed now n t Hnow).
    cbn [callback handle fire]. unfold doublePressExpired.
    cbn [clearTimeout pendingPressRef pressStartRef longPressTimerRef].
    rewrite Hp, Hs, Hl. cbn [andb]. fold h1. rewrite Hh1. reflexivity. }
  intros h'. subst h'. rewrite Hadv. unfold idle. rewrite Hh1.
  subst h1.
  cbn [setPending bumpPressCount setState pendingPressRef
       outputs longPressTimerRef doublePressTimerRef nextHandle].
  rewrite dispatch_outputs, E2, E3, E7.
  repeat split; reflexivity.
Qed.

Lemma advance_wf (now : Z) (h : Hook) :
  wellFormed h ->
  wellFormed (advance hs now h)
  /\ (advance hs now h = h
      \/ outputs (advance hs now h)
         = outputs h ++ Dispatched Press :: calls hs Press).
Proof.
  intros [Hfresh [[Ht Hp] | (n & t & Harm)]].
  - rewrite (advance_idle now h Ht).
    split; [split; [exact Hfresh | left; split; assumption] | left; reflexivity].
  - destruct (Z.lt_ge_cases now (t + DOUBLE_PRESS_WINDOW)) as [Hearly | Hlate].
    + rewrite (advance_armed_early now h n t Harm Hearly).
      split; [split; [exact Hfresh | right; exists n, t; exact Harm]
             | left; reflexivity].
    + destruct (advance_armed_late now h n t Harm Hlate)
        as (Hidle & Hout & Hl & Hd & Hn).
      split; [| right; exact Hout].
      split; [| left; exact Hidle].
      destruct Hfresh as [Hfl Hfd]. split; intros x Hx.
      * rewrite Hn. apply Hfl. rewrite <- Hl. exact Hx.
      * rewrite Hn. apply Hfd. rewrite <- Hd. exact Hx.
Qed.

(** The rounds of [runTimers] are enough: once time has reached [now], no
    armed timer is due. *)
Lemma advance_complete (now : Z) (h : Hook) :
  wellFormed h -> nextDue now (timers (advance hs now h)) = None.
Proof.
  intros [_ [[Ht _] | (n & t & Harm)]].
  - rewrite (advance_idle now h Ht), Ht. reflexivity.
  - destruct (Z.lt_ge_cases now (t + DOUBLE_PRESS_WINDOW)) as [Hearly | Hlate].
    + rewrite (advance_armed_early now h n t Harm Hearly).
      destruct Harm as (Ht & _). rewrite Ht. unfold nextDue.
      cbn [filter deadline].
      unfold DOUBLE_PRESS_WINDOW, LONG_PRESS_THRESHOLD in *.
      destruct (Z.leb_spec (t + 400) now); [lia |].
      destruct (Z.leb_spec (t + 250) now); [lia | reflexivity].
    + destruct (advance_armed_late now h n t Harm Hlate) as ((Ht & _) & _).
      rewrite Ht. reflexivity.
Qed.

(** A press that is not the second of a double press arms both timers and
    dispatches nothing yet. *)
Lemma onActivate_single (now : Z) (h : Hook) :
  wellFormed h ->
  (now - lastPressRef h <? DOUBLE_PRESS_WINDOW) && pendingPressRef h = false ->
  let h' := onActivate hs now h in
  armed h' (nextHandle h) now
  /\ nextHandle h' = S (S (nextHandle h))
  /\ outputs h' = outputs h.
Proof.
  intros [[Hfl Hfd] Hshape] Hcond.
  destruct h as [st ps lp lr dr pd tm nh out].
  unfold idle, armed in *. cbn [timers pendingPressRef longPressTimerRef
    doublePressTimerRef pressStartRef lastPressRef nextHandle outputs] in *.
  destruct Hshape as [[-> ->] | (n & t & -> & -> & -> & -> & -> & ->)].
  - clear Hcond.
    destruct lr as [l |], dr as [d |]; unfold onActivate;
      cbn -[Nat.eqb Z.ltb Z.sub Z.add]; rewrite ?Bool.andb_false_r;
      cbn -[Nat.eqb Z.ltb Z.sub Z.add].
    all: try (rewrite (gt_eqb d nh) by (apply Hfd; reflexivity)).
    all: repeat split; reflexivity.
  - rewrite Bool.andb_true_r in Hcond.
    pose proof (Hfd (S n) eq_refl) as Hlt.
    unfold onActivate; cbn -[Nat.eqb Z.ltb Z.sub Z.add].
    rewrite Hcond. cbn -[Nat.eqb Z.ltb Z.sub Z.add]. sweep.
    rewrite (gt_eqb (S n) nh Hlt). sweep.
    repeat split; reflexivity.
Qed.


(** A press within the window of a pending press cancels both timers and
    dispatches [doublePress] at once. *)
Lemma onActivate_double (now : Z) (h : Hook) :
  wellFormed h ->
  (now - lastPressRef h <? DOUBLE_PRESS_WINDOW) && pendingPressRef h = true ->
  let h' := onActivate hs now h in
  idle h'
  /\ longPressTimerRef h' = None
  /\ doublePressTimerRef h' = None
  /\ nextHandle h' = S (nextHandle h)
  /\ outputs h' = outputs h ++ Dispatched DoublePress :: calls hs DoublePress.
Proof.
  intros [[Hfl Hfd] Hshape] Hcond.
  destruct h as [st ps lp lr dr pd tm nh out].
  unfold idle, armed in *. cbn [timers pendingPressRef longPressTimerRef
    doublePressTimerRef pressStartRef lastPressRef nextHandle outputs] in *.
  destruct Hshape as [[-> ->] | (n & t & -> & -> & -> & -> & -> & ->)].
  - rewrite Bool.andb_false_r in Hcond. discriminate.
  - pose proof (Hfd (S n) eq_refl) as Hlt.
    unfold onActivate, dispatch, calls; cbn -[Nat.eqb Z.ltb Z.sub Z.add].
    rewrite Hcond.
    destruct (onDoublePress hs); cbn -[Nat.eqb Z.ltb Z.sub Z.add]; sweep;
      rewrite (lt_eqb (S n) nh Hlt); sweep;
      rewrite <- ?app_assoc; repeat split; reflexivity.
Qed.

Lemma onInput_activate (now : Z) (input : string) (key : Key) (h : Hook) :
  isActivate input key = true ->
  onInput hs now input key h = onActivate hs now h.
Proof.
  unfold isActivate, navFree, onInput. intros H.
  apply andb_prop in H. destruct H as [H Hret].
  repeat (apply andb_prop in H; destruct H as [H ?]).
  repeat match goal with
         | E : negb ?b = true |- _ => apply negb_true_iff in E; rewrite E
         end.
  rewrite Hret. reflexivity.
Qed.

Lemma wellFormed_same (h h' : Hook) :
  sameTimers h h' -> wellFormed h -> wellFormed h'.
Proof.
  intros (E1 & E2 & E3 & E4 & E5 & E6 & E7).
  unfold wellFormed, freshRefs, idle, armed.
  rewrite E1, E2, E3, E4, E5, E6, E7. tauto.
Qed.

(** Any other key leaves the timers alone and dispatches at most a
    navigation action, [tab] or [escape]. *)
Lemma onInput_other (now : Z) (input : string) (key : Key) (h : Hook) :
  isActivate input key = false ->
  sameTimers h (onInput hs now input key h)
  /\ exists extra,
       outputs (onInput hs now input key h) = outputs h ++ extra
       /\ ~ In (Dispatched LongPress) extra
       /\ ~ In (Dispatched Press) extra
       /\ ~ In (Dispatched DoublePress) extra.
Proof.
  intros Hact.
  assert (Hd : forall a, a <> LongPress -> a <> Press -> a <> DoublePress ->
    sameTimers h (dispatch hs a h)
    /\ exists extra,
         outputs (dispatch hs a h) = outputs h ++ extra
         /\ ~ In (Dispatched LongPress) extra
         /\ ~ In (Dispatched Press) extra
         /\ ~ In (Dispatched DoublePress) extra).
  { intros a H1 H2 H3. split; [exact (dispatch_refs a h) |].
    exists (Dispatched a :: calls hs a). split; [apply dispatch_outputs |].
    unfold calls. destruct (handlerFor hs a); simpl;
      repeat split; intros [E | [E | []]] || intros [E | []];
      congruence. }
  assert (Hnone : sameTimers h h
    /\ exists extra,
         outputs h = outputs h ++ extra
         /\ ~ In (Dispatched LongPress) extra
         /\ ~ In (Dispatched Press) extra
         /\ ~ In (Dispatched DoublePress) extra).
  { split; [repeat split |]. exists []. rewrite app_nil_r.
    repeat split; intros []. }
  unfold isActivate, navFree in Hact. unfold onInput.
  destruct (upArrow key || String.eqb input "k"); [apply Hd; discriminate |].
  destruct (downArrow key || String.eqb input "j"); [apply Hd; discriminate |].
  destruct (leftArrow key || String.eqb input "h"); [apply Hd; discriminate |].
  destruct (rightArrow key || String.eqb input "l"); [apply Hd; discriminate |].
  destruct (tab key); [apply Hd; discriminate |].
  destruct (escape key || String.eqb input "q").
  - destruct (onEscape hs); [apply Hd; discriminate |].
    split; [repeat split |]. exists [Exited]. split; [reflexivity |].
    repeat split; intros [E | []]; discriminate.
  - simpl in Hact. rewrite Hact. exact Hnone.
Qed.

Lemma calls_no_dispatch (a b : InputAction) : ~ In (Dispatched b) (calls hs a).
Proof.
  unfold calls. destruct (handlerFor hs a); simpl; [| tauto].
  intros [E | []]. discriminate.
Qed.

Lemma mounted_wf : wellFormed mounted.
Proof.
  split; [split; intros t E; discriminate | left; split; reflexivity].
Qed.

(** The shape is kept by every event, and no event dispatches [longPress]. *)
Lemma step_wf (e : Event) (h : Hook) :
  wellFormed h ->
  wellFormed (step hs e h)
  /\ exists extra, outputs (step hs e h) = outputs h ++ extra
                   /\ ~ In (Dispatched LongPress) extra.
Proof.
  intros Hwf.
  assert (Hadv : forall now, wellFormed (advance hs now h)
    /\ exists extra, outputs (advance hs now h) = outputs h ++ extra
                     /\ ~ In (Dispatched LongPress) extra).
  { intros now. destruct (advance_wf now h Hwf) as [Hw [E | E]].
    - split; [exact Hw |]. exists []. rewrite E, app_nil_r. split; [reflexivity | intros []].
    - split; [exact Hw |]. eexists. split; [exact E |].
      intros [D | D]; [discriminate | exact (calls_no_dispatch _ _ D)]. }
  destruct e as [now input key | now]; [| apply Hadv].
  destruct (Hadv now) as (Hw & x1 & Hx1 & Hn1). cbn [step].
  set (h1 := advance hs now h) in *.
  destruct (isActivate input key) eqn:Hact.
  - rewrite (onInput_activate now input key h1 Hact).
    destruct ((now - lastPressRef h1 <? DOUBLE_PRESS_WINDOW)
              && pendingPressRef h1) eqn:Hc.
    + destruct (onActivate_double now h1 Hw Hc) as (Hi & Hl & Hd & Hn & Ho).
      split.
      * split; [| left; exact Hi].
        split; intros t E; [rewrite Hl in E | rewrite Hd in E]; discriminate.
      * exists (x1 ++ Dispatched DoublePress :: calls hs DoublePress).
        rewrite Ho, Hx1, <- app_assoc. split; [reflexivity |].
        intros D. apply in_app_or in D.
        destruct D as [D | [D | D]];
          [exact (Hn1 D) | discriminate | exact (calls_no_dispatch _ _ D)].
    + destruct (onActivate_single now h1 Hw Hc) as (Ha & Hn & Ho).
      split.
      * split; [| right; exists (nextHandle h1), now; exact Ha].
        destruct Ha as (_ & Hl & Hd & _).
        split; intros t E; [rewrite Hl in E | rewrite Hd in E];
          injection E as <-; rewrite Hn; lia.
      * exists x1. rewrite Ho. split; assumption.
  - destruct (onInput_other now input key h1 Hact)
      as (Hsame & x2 & Hx2 & Hn2 & _).
    split; [exact (wellFormed_same _ _ Hsame Hw) |].
    exists (x1 ++ x2). rewrite Hx2, Hx1, <- app_assoc.
    split; [reflexivity |].
    intros D. apply in_app_or in D. tauto.
Qed.

Lemma run_wf (es : list Event) (h : Hook) :
  wellFormed h ->
  wellFormed (run hs es h)
  /\ exists extra, outputs (run hs es h) = outputs h ++ extra
                   /\ ~ In (Dispatched LongPress) extra.
Proof.
  revert h. induction es as [| e es IH]; intros h Hwf.
  - split; [exact Hwf |]. exists []. rewrite app_nil_r.
    split; [reflexivity | intros []].
  - destruct (step_wf e h Hwf) as (Hw1 & x1 & Hx1 & Hn1).
    destruct (IH (step hs e h) Hw1) as (Hw2 & x2 & Hx2 & Hn2).
    split; [exact Hw2 |].
    exists (x1 ++ x2). cbn [run fold_left].
    change (fold_left (fun h0 e0 => step hs e0 h0) es (step hs e h))
      with (run hs es (step hs e h)).
    rewrite Hx2, Hx1, <- app_assoc. split; [reflexivity |].
    intros D. apply in_app_or in D. tauto.
Qed.

Lemma in_dispatched (a : InputAction) (h : Hook) :
  In a (dispatched h) <-> In (Dispatched a) (outputs h).
Proof.
  unfold dispatched. rewrite in_flat_map. split.
  - intros (o & Ho & Ha). destruct o; simpl in Ha; try tauto.
    destruct Ha as [-> | []]. exact Ho.
  - intros H. exists (Dispatched a). split; [exact H | left; reflexivity].
Qed.

(** Whatever the keys and their timing, [longPress] is never dispatched:
    the long-press timer is always cancelled by the double-press timer of
    the same press, which is due 150 ms earlier. *)
Lemma longPress_never_dispatched (es : list Event) :
  ~ In LongPress (dispatched (run hs es mounted)).
Proof.
  rewrite in_dispatched.
  destruct (run_wf es mounted mounted_wf) as (_ & x & Hx & Hn).
  rewrite Hx. exact Hn.
Qed.

Lemma dispatched_app (h : Hook) (extra : list Output) :
  flat_map (fun o => match o with Dispatched a => [a] | _ => [] end)
           (outputs h ++ extra)
  = dispatched h
    ++ flat_map (fun o => match o with Dispatched a => [a] | _ => [] end) extra.
Proof. unfold dispatched. apply flat_map_app. Qed.

Lemma dispatched_gesture (h h' : Hook) (a : InputAction) :
  outputs h' = outputs h ++ Dispatched a :: calls hs a ->
  dispatched h' = dispatched h ++ [a].
Proof.
  intros E. unfold dispatched at 1. rewrite E, dispatched_app.
  f_equal. unfold calls. destruct (handlerFor hs a); reflexivity.
Qed.

(** With no timer armed, the passing of time does nothing. *)
Lemma ticks_idle (later : list Z) (h : Hook) :
  timers h = [] -> run hs (map Tick later) h = h.
Proof.
  intros Ht. induction later as [| t later IH]; [reflexivity |].
  cbn [map run fold_left step]. rewrite (advance_idle t h Ht). exact IH.
Qed.

(** The unmount cleanup leaves no timer armed and dispatches nothing. *)
Lemma unmount_clears (h : Hook) :
  wellFormed h ->
  timers (unmount h) = []
  /\ longPressTimerRef (unmount h) = None
  /\ doublePressTimerRef (unmount h) = None
  /\ outputs (unmount h) = outputs h.
Proof.
  intros [_ Hshape].
  destruct h as [st ps lp lr dr pd tm nh out].
  unfold idle, armed in *. cbn [timers pendingPressRef longPressTimerRef
    doublePressTimerRef pressStartRef lastPressRef nextHandle outputs] in *.
  destruct Hshape as [[-> ->] | (n & t & -> & -> & -> & -> & -> & ->)].
  - destruct lr, dr; unfold unmount, clearTimers;
      cbn -[Nat.eqb]; repeat split; reflexivity.
  - unfold unmount, clearTimers. cbn -[Nat.eqb]. sweep.
    repeat split; reflexivity.
Qed.

(** C1 (the code departs from it).  A single press at [t] on a fresh
    dispatcher, followed by nothing until [t + 400] or later, is resolved as
    [press]: the double-press timer runs at [t + 250], cancels the
    long-press timer and dispatches [press]; [longPress] is not dispatched. *)
Theorem held_press_dispatches_press (t now : Z) :
  t + LONG_PRESS_THRESHOLD <= now ->
  let h := run hs [pressAt t; Tick now] mounted in
  outputs h = Dispatched Press :: calls hs Press
  /\ dispatched h = [Press]
  /\ timers h = [].
Proof.
  intros Hnow h.
  assert (Hh : h = advance hs now (onActivate hs t mounted)) by reflexivity.
  destruct (onActivate_single t mounted mounted_wf) as (Ha & _ & Ho).
  { apply Bool.andb_false_r. }
  unfold LONG_PRESS_THRESHOLD in Hnow.
  destruct (advance_armed_late now _ _ t Ha) as ((Ht & _) & Hout & _).
  { unfold DOUBLE_PRESS_WINDOW. lia. }
  rewrite <- Hh in Ht, Hout. rewrite Ho in Hout.
  split; [exact Hout |]. split; [| exact Ht].
  unfold dispatched. rewrite Hout. unfold calls.
  destruct (handlerFor hs Press); reflexivity.
Qed.

(** C6.  Take any reachable state, an activate press at [t] that leaves a
    press pending, and a second activate press at [t'] with
    [t <= t' < t + 250].  The first press dispatches nothing; the second
    dispatches [doublePress], once, and nothing else; both timers are
    cancelled, both refs and the pending flag are cleared, and no later tick
    dispatches anything (no [press] follows). *)
Theorem double_press_within_window (es : list Event) (t t' : Z)
        (input input' : string) (key key' : Key) :
  let h0 := run hs es mounted in
  let h1 := step hs (KeyEvent t input key) h0 in
  let h2 := step hs (KeyEvent t' input' key') h1 in
  isActivate input key = true -> isActivate input' key' = true ->
  pendingPressRef h1 = true ->
  t <= t' < t + DOUBLE_PRESS_WINDOW ->
  outputs h1 = outputs (advance hs t h0)
  /\ outputs h2 = outputs h1 ++ Dispatched DoublePress :: calls hs DoublePress
  /\ dispatched h2 = dispatched h1 ++ [DoublePress]
  /\ timers h2 = []
  /\ longPressTimerRef h2 = None
  /\ doublePressTimerRef h2 = None
  /\ pendingPressRef h2 = false
  /\ forall later, run hs (map Tick later) h2 = h2.
Proof.
  intros h0 h1 h2 Hact Hact' Hpend Ht.
  destruct (run_wf es mounted mounted_wf) as (Hw0 & _).
  destruct (advance_wf t (run hs es mounted) Hw0) as (Hwa & _).
  fold h0 in Hwa.
  assert (Hh1 : h1 = onActivate hs t (advance hs t h0))
    by (apply onInput_activate; exact Hact).
  assert (Harm : armed h1 (nextHandle (advance hs t h0)) t
                 /\ outputs h1 = outputs (advance hs t h0)).
  { destruct ((t - lastPressRef (advance hs t h0) <? DOUBLE_PRESS_WINDOW)
              && pendingPressRef (advance hs t h0)) eqn:Hc.
    - destruct (onActivate_double t _ Hwa Hc) as ((_ & Hp) & _).
      rewrite <- Hh1 in Hp. congruence.
    - destruct (onActivate_single t _ Hwa Hc) as (Ha & _ & Ho).
      rewrite <- Hh1 in Ha, Ho. split; assumption. }
  destruct Harm as (Harm & Hout1).
  assert (Hw1 : wellFormed h1).
  { destruct (step_wf (KeyEvent t input key) h0 Hw0) as (Hw & _). exact Hw. }
  assert (Hadv : advance hs t' h1 = h1)
    by (apply (advance_armed_early t' h1 _ t Harm); lia).
  assert (Hh2 : h2 = onActivate hs t' h1).
  { unfold h2. cbn [step]. rewrite Hadv.
    apply onInput_activate; exact Hact'. }
  destruct (onActivate_double t' h1 Hw1) as ((Htm & Hp) & Hl & Hd & _ & Ho).
  { destruct Harm as (_ & _ & _ & Hpd & _ & Hlast). rewrite Hpd, Hlast.
    destruct (Z.ltb_spec (t' - t) DOUBLE_PRESS_WINDOW); [reflexivity | lia]. }
  rewrite <- Hh2 in Htm, Hp, Hl, Hd, Ho.
  split; [exact Hout1 |]. split; [exact Ho |].
  split; [exact (dispatched_gesture h1 h2 DoublePress Ho) |].
  split; [exact Htm |]. split; [exact Hl |]. split; [exact Hd |].
  split; [exact Hp |].
  intros later. apply ticks_idle. exact Htm.
Qed.

(** C9.  After any sequence of events, the unmount cleanup cancels every
    armed timer and clears both refs; from then on the passing of time
    changes nothing, so nothing more is dispatched and no handler is called.
    In particular a press at [t] followed by the cleanup before its first
    deadline ([t + 250]) dispatches nothing at all, however long one waits
    afterwards. *)
Theorem unmount_cancels_timers (es : list Event) (later : list Z) :
  let h := unmount (run hs es mounted) in
  timers h = []
  /\ longPressTimerRef h = None
  /\ doublePressTimerRef h = None
  /\ run hs (map Tick later) h = h
  /\ outputs (run hs (map Tick later) h) = outputs (run hs es mounted)
  /\ (forall t now,
       now < t + DOUBLE_PRESS_WINDOW ->
       outputs (run hs (map Tick later)
                    (unmount (run hs [pressAt t; Tick now] mounted)))
       = []).
Proof.
  intros h.
  assert (Hany : forall es', let h' := unmount (run hs es' mounted) in
            timers h' = [] /\ longPressTimerRef h' = None
            /\ doublePressTimerRef h' = None
            /\ run hs (map Tick later) h' = h'
            /\ outputs (run hs (map Tick later) h') = outputs (run hs es' mounted)).
  { intros es' h'.
    destruct (run_wf es' mounted mounted_wf) as (Hw & _).
    destruct (unmount_clears _ Hw) as (Ht & Hl & Hd & Ho).
    fold h' in Ht, Hl, Hd, Ho.
    pose proof (ticks_idle later h' Ht) as Hrun.
    repeat split; try assumption. rewrite Hrun. exact Ho. }
  destruct (Hany es) as (Ht & Hl & Hd & Hrun & Ho).
  repeat split; try assumption.
  intros t now Hnow.
  destruct (Hany [pressAt t; Tick now]) as (_ & _ & _ & _ & Ho').
  rewrite Ho'.
  destruct (onActivate_single t mounted mounted_wf) as (Ha & _ & Hout).
  { apply Bool.andb_false_r. }
  change (run hs [pressAt t; Tick now] mounted)
    with (advance hs now (onActivate hs t mounted)).
  rewrite (advance_armed_early now _ _ t Ha Hnow). exact Hout.
Qed.

(** C10.  The key [q], pressed without an arrow or Tab flag, is handled as
    Escape is.  When the caller gave an [onEscape] handler, [escape] is
    dispatched and the handler is called: the hook's outputs grow by exactly
    that dispatch and that call, and [lastAction] becomes [escape].  When
    not, the application exits: the outputs grow by exactly one [exit()] and
    the state is left as it was.  Either way the timers, the refs and the
    pending press are untouched, and the Escape key itself yields the very
    same result. *)
Theorem q_is_escape (now : Z) (key : Key) (h : Hook) :
  navFree "q" key = true ->
  onInput hs now "q" key h
  = (if onEscape hs then dispatch hs Escape h else emit Exited h)
  /\ onInput hs now "q" key h = onInput hs now "" escapeKey h
  /\ step hs (KeyEvent now "q" key) h = step hs (KeyEvent now "" escapeKey) h
  /\ outputs (onInput hs now "q" key h)
     = outputs h ++ (if onEscape hs
                     then [Dispatched Escape; Called Escape]
                     else [Exited])
  /\ outputs (onInput hs now "" escapeKey h)
     = outputs h ++ (if onEscape hs
                     then [Dispatched Escape; Called Escape]
                     else [Exited])
  /\ state (onInput hs now "q" key h)
     = (if onEscape hs
        then mkInputState (Some Escape) (isLongPressing (state h))
                          (pressCount (state h))
        else state h)
  /\ sameTimers h (onInput hs now "q" key h).
Proof.
  intros Hnav.
  assert (Hq : forall h', onInput hs now "q" key h'
                = (if onEscape hs then dispatch hs Escape h' else emit Exited h')).
  { intros h'. unfold navFree in Hnav. unfold onInput.
    destruct key as [u d l r tb e ret]. cbn in Hnav |- *.
    destruct u, d, l, r, tb; try discriminate.
    cbn. rewrite Bool.orb_true_r. reflexivity. }
  assert (He : onInput hs now "" escapeKey h
               = (if onEscape hs then dispatch hs Escape h else emit Exited h))
    by reflexivity.
  assert (Hout : outputs (if onEscape hs then dispatch hs Escape h
                          else emit Exited h)
                 = outputs h ++ (if onEscape hs
                                 then [Dispatched Escape; Called Escape]
                                 else [Exited])).
  { destruct (onEscape hs) eqn:E; [| reflexivity].
    rewrite dispatch_outputs. unfold calls. cbn [handlerFor]. rewrite E.
    reflexivity. }
  split; [apply Hq |]. split; [rewrite Hq; reflexivity |].
  split; [cbn [step]; rewrite Hq; reflexivity |].
  split; [rewrite Hq; exact Hout |].
  split; [rewrite He; exact Hout |].
  rewrite Hq. destruct (onEscape hs) eqn:E.
  - split; [| exact (dispatch_refs Escape h)].
    unfold dispatch. cbn [handlerFor]. rewrite E. reflexivity.
  - split; [reflexivity | repeat split].
Qed.

End InputFacts.

Lemma held_press_dispatches_press_witness :
  Input.dispatched
    (Input.run Input.allHandlers [Input.pressAt 1000; Input.Tick 1400]
               Input.mounted)
  = [Input.Press].
Proof.
  apply (held_press_dispatches_press Input.allHandlers 1000 1400).
  unfold Input.LONG_PRESS_THRESHOLD. lia.
Defined.

Lemma double_press_within_window_witness :
  Input.dispatched
    (Input.run Input.allHandlers [Input.pressAt 1000; Input.pressAt 1100]
               Input.mounted)
  = [] ++ [Input.DoublePress].
Proof.
  apply (double_press_within_window Input.allHandlers [] 1000 1100
           EmptyString EmptyString Input.enterKey Input.enterKey);
    try reflexivity.
  unfold Input.DOUBLE_PRESS_WINDOW. lia.
Defined.

Lemma q_is_escape_witness :
  Input.outputs (Input.onInput Input.allHandlers 0 "q" Input.noKey Input.mounted)
  = [Input.Dispatched Input.Escape; Input.Called Input.Escape]
  /\ Input.outputs
       (Input.onInput Input.noHandlers 0 "q" Input.noKey Input.mounted)
     = [Input.Exited].
Proof.
  split.
  - destruct (q_is_escape Input.allHandlers 0 Input.noKey Input.mounted eq_refl)
      as (_ & _ & _ & H & _).
    exact H.
  - destruct (q_is_escape Input.noHandlers 0 Input.noKey Input.mounted eq_refl)
      as (_ & _ & _ & H & _).
    exact H.
Defined.

Lemma unmount_cancels_timers_witness :
  Input.outputs
    (Input.run Input.allHandlers (map Input.Tick [1250; 1400; 2000]%Z)
       (Input.unmount
          (Input.run Input.allHandlers [Input.pressAt 1000; Input.Tick 1100]
                     Input.mounted)))
  = [].
Proof.
  apply (unmount_cancels_timers Input.allHandlers [] [1250; 1400; 2000]%Z).
  unfold Input.DOUBLE_PRESS_WINDOW. lia.
Defined.

(** * Further properties of the hooks and components *)

(** ** [move]: how moves compose *)

Section NavCompose.
Local Open Scope Z_scope.

(** X1.  With wrap on and a non-empty ring, two moves in a row are the move
    by the sum; hence, from an index of the ring, a move and its opposite
    cancel, and a move by the item count is a full turn back to the same
    index. *)
Theorem move_wrap_compose (count index d1 d2 : Z) :
  0 < count ->
  Nav.move count true d2 (Nav.move count true d1 index)
    = Nav.move count true (d1 + d2) index
  /\ (0 <= index < count ->
      Nav.move count true (- d1) (Nav.move count true d1 index) = index
      /\ Nav.move count true count index = index).
Proof.
  intros Hc.
  assert (Hcomp : forall i a b,
            Nav.move count true b (Nav.move count true a i)
            = Nav.move count true (a + b) i).
  { intros i a b. rewrite !move_wrap_modulo by exact Hc.
    rewrite Z.add_mod_idemp_l by lia. f_equal. lia. }
  split; [apply Hcomp |].
  intros Hi. split.
  - rewrite Hcomp, move_wrap_modulo by exact Hc.
    replace (index + (d1 + - d1)) with index by lia.
    apply Z.mod_small; exact Hi.
  - rewrite move_wrap_modulo by exact Hc.
    rewrite <- (Z.mul_1_l count) at 1.
    rewrite Z.mod_add by lia. apply Z.mod_small; exact Hi.
Qed.

Lemma move_wrap_compose_witness :
  Nav.move 5 true 4 (Nav.move 5 true 3 2) = Nav.move 5 true (3 + 4) 2.
Proof. apply (move_wrap_compose 5 2 3 4). lia. Defined.

(** X2.  With wrap off, repeated single steps saturate at the ends: from an
    index of the ring, [k] steps to the right reach
    [min (count - 1) (index + k)] and [k] steps to the left reach
    [max 0 (index - k)]. *)
Theorem move_clamp_iterate (count index : Z) (k : nat) :
  0 <= index < count ->
  Nat.iter k (Nav.move count false 1) index
    = Z.min (count - 1) (index + Z.of_nat k)
  /\ Nat.iter k (Nav.move count false (-1)) index
     = Z.max 0 (index - Z.of_nat k).
Proof.
  intros Hi. induction k as [| k [IHr IHl]].
  - simpl. lia.
  - rewrite !Nat.iter_succ, IHr, IHl. unfold Nav.move. lia.
Qed.

Lemma move_clamp_iterate_witness :
  Nat.iter 7 (Nav.move 5 false 1) 2 = Z.min (5 - 1) (2 + Z.of_nat 7).
Proof. apply (move_clamp_iterate 5 2 7). lia. Defined.

End NavCompose.

(** ** The dispatcher: keys, state and timing *)

Section InputMore.
Local Open Scope Z_scope.
Import Input.

Variable hs : InputHandlers.

Ltac sweep' :=
  repeat (progress (cbn [filter handle negb app];
                    rewrite ?Nat.eqb_refl, ?succ_eqb_self, ?self_eqb_succ)).

Lemma onInput_meaning (now : Z) (input : string) (key : Key) (h : Hook) :
  onInput hs now input key h
  = match Keys.meaning input key with
    | Keys.Act a => dispatch hs a h
    | Keys.Quit => if onEscape hs then dispatch hs Escape h else emit Exited h
    | Keys.Activate => onActivate hs now h
    | Keys.Ignored => h
    end.
Proof.
  unfold onInput, Keys.meaning.
  repeat match goal with
         | |- context [if ?b then _ else _] =>
             lazymatch b with
             | onEscape _ => fail
             | _ => destruct b
             end
         end; reflexivity.
Qed.

Lemma dispatch_state (a : InputAction) (h : Hook) :
  state (dispatch hs a h)
  = mkInputState (Some a) (isLongPressing (state h)) (pressCount (state h)).
Proof. unfold dispatch. destruct (handlerFor hs a); reflexivity. Qed.

(** The state after the double-press timer has resolved a pending press. *)
Lemma advance_armed_late_state (now : Z) (h : Hook) (n : nat) (t : Z) :
  armed h n t -> t + DOUBLE_PRESS_WINDOW <= now ->
  state (advance hs now h)
  = mkInputState (Some Press) (isLongPressing (state h))
                 (pressCount (state h) + 1).
Proof.
  intros (Ht & Hl & Hd & Hp & Hs & Hlast) Hnow.
  set (h1 := setPending false
               (bumpPressCount (dispatch hs Press
                  (clearTimeout n (clearTimeout (S n) h))))).
  destruct (dispatch_refs hs Press (clearTimeout n (clearTimeout (S n) h)))
    as (E1 & _).
  assert (Hh1 : timers h1 = []).
  { subst h1. cbn [setPending bumpPressCount setState timers].
    rewrite E1. cbn [clearTimeout timers]. rewrite Ht. sweep'.
    reflexivity. }
  assert (Hadv : advance hs now h = h1).
  { unfold advance. rewrite Ht. cbn [List.length runTimers].
    rewrite Ht, (nextDue_armed now n t Hnow).
    cbn [callback handle fire]. unfold doublePressExpired.
    cbn [clearTimeout pendingPressRef pressStartRef longPressTimerRef].
    rewrite Hp, Hs, Hl. cbn [andb]. fold h1. rewrite Hh1. reflexivity. }
  rewrite Hadv. subst h1.
  cbn [setPending bumpPressCount setState state].
  rewrite dispatch_state. reflexivity.
Qed.

Lemma onActivate_single_state (now : Z) (h : Hook) :
  wellFormed h ->
  (now - lastPressRef h <? DOUBLE_PRESS_WINDOW) && pendingPressRef h = false ->
  state (onActivate hs now h) = state h.
Proof.
  intros [[Hfl Hfd] Hshape] Hcond.
  destruct h as [st ps lp lr dr pd tm nh out].
  unfold idle, armed in *. cbn [timers pendingPressRef longPressTimerRef
    doublePressTimerRef pressStartRef lastPressRef nextHandle outputs] in *.
  destruct Hshape as [[-> ->] | (n & t & -> & -> & -> & -> & -> & ->)].
  - clear Hcond.
    destruct lr as [l |], dr as [d |]; unfold onActivate;
      cbn -[Nat.eqb Z.ltb Z.sub Z.add]; rewrite ?Bool.andb_false_r;
      reflexivity.
  - rewrite Bool.andb_true_r in Hcond.
    unfold onActivate; cbn -[Nat.eqb Z.ltb Z.sub Z.add].
    rewrite Hcond. reflexivity.
Qed.

Lemma onActivate_double_state (now : Z) (h : Hook) :
  (now - lastPressRef h <? DOUBLE_PRESS_WINDOW) && pendingPressRef h = true ->
  state (onActivate hs now h)
  = mkInputState (Some DoublePress) (isLongPressing (state h))
                 (pressCount (state h) + 1).
Proof.
  intros Hcond.
  destruct h as [st ps lp lr dr pd tm nh out].
  cbn [pendingPressRef lastPressRef] in Hcond.
  unfold onActivate, dispatch.
  destruct lr as [l |]; cbn -[Nat.eqb Z.ltb Z.sub Z.add];
    rewrite Hcond;
    destruct dr as [d |]; destruct (onDoublePress hs);
    reflexivity.
Qed.

Lemma meaning_act_not_press (input : string) (key : Key) (a : InputAction) :
  Keys.meaning input key = Keys.Act a -> Keys.isPress a = false.
Proof.
  unfold Keys.meaning.
  repeat match goal with
         | |- context [if ?b then _ else _] => destruct b
         end; intros E; inversion E; reflexivity.
Qed.

Lemma isActivate_meaning (input : string) (key : Key) :
  isActivate input key = true <-> Keys.meaning input key = Keys.Activate.
Proof.
  unfold isActivate, navFree, Keys.meaning.
  destruct (upArrow key || String.eqb input "k");
    destruct (downArrow key || String.eqb input "j");
    destruct (leftArrow key || String.eqb input "h");
    destruct (rightArrow key || String.eqb input "l");
    destruct (tab key);
    destruct (escape key || String.eqb input "q");
    destruct (return_ key || String.eqb input " ");
    simpl; split; intros E; try reflexivity; discriminate.
Qed.

Lemma meaning_act_not_long (input : string) (key : Key) (a : InputAction) :
  Keys.meaning input key = Keys.Act a -> a <> LongPress.
Proof.
  unfold Keys.meaning.
  repeat match goal with
         | |- context [if ?b then _ else _] => destruct b
         end; intros E; inversion E; discriminate.
Qed.

Lemma calls_allowed (a : InputAction) :
  a <> LongPress -> Forall (Keys.allowed hs) (Dispatched a :: calls hs a).
Proof.
  intros Ha. constructor; [exact Ha |]. unfold calls.
  destruct (handlerFor hs a) eqn:E; constructor;
    [split; [exact E | exact Ha] | constructor].
Qed.

(** Appending one dispatched action keeps the summary. *)
Lemma summarises_gesture (h h' : Hook) (a : InputAction) :
  outputs h' = outputs h ++ Dispatched a :: calls hs a ->
  state h' = mkInputState (Some a) (isLongPressing (state h))
               (pressCount (state h) + (if Keys.isPress a then 1 else 0)) ->
  Keys.summarises h -> Keys.summarises h'.
Proof.
  intros Hout Hst (Hl & Hc & Hp).
  pose proof (dispatched_gesture hs h h' a Hout) as Hd.
  unfold Keys.summarises. rewrite Hd, Hst. cbn [lastAction pressCount isLongPressing].
  rewrite map_app, filter_app, length_app. cbn [filter map].
  rewrite last_last, Hc, Hp. destruct (Keys.isPress a); cbn [List.length];
    repeat split; lia.
Qed.

Lemma summarises_same (h h' : Hook) :
  dispatched h' = dispatched h -> state h' = state h ->
  Keys.summarises h -> Keys.summarises h'.
Proof. unfold Keys.summarises. intros -> ->. tauto. Qed.

Lemma advance_facts (now : Z) (h : Hook) :
  wellFormed h -> Keys.summarises h -> Forall (Keys.allowed hs) (outputs h) ->
  Keys.summarises (advance hs now h)
  /\ Forall (Keys.allowed hs) (outputs (advance hs now h)).
Proof.
  intros [_ [[Ht Hp] | (n & t & Harm)]] Hsum Hall.
  - rewrite (advance_idle hs now h Ht). split; assumption.
  - destruct (Z.lt_ge_cases now (t + DOUBLE_PRESS_WINDOW)) as [Hearly | Hlate].
    + rewrite (advance_armed_early hs now h n t Harm Hearly).
      split; assumption.
    + destruct (advance_armed_late hs now h n t Harm Hlate) as (_ & Hout & _).
      split.
      * apply (summarises_gesture h _ Press Hout); [| exact Hsum].
        rewrite (advance_armed_late_state now h n t Harm Hlate). reflexivity.
      * rewrite Hout. apply Forall_app.
        split; [exact Hall | apply calls_allowed; discriminate].
Qed.

Lemma dispatched_emit_exit (h : Hook) :
  dispatched (emit Exited h) = dispatched h.
Proof.
  unfold dispatched. cbn [emit outputs]. rewrite flat_map_app.
  apply app_nil_r.
Qed.

Lemma onInput_facts (now : Z) (input : string) (key : Key) (h : Hook) :
  wellFormed h -> Keys.summarises h -> Forall (Keys.allowed hs) (outputs h) ->
  Keys.summarises (onInput hs now input key h)
  /\ Forall (Keys.allowed hs) (outputs (onInput hs now input key h)).
Proof.
  intros Hwf Hsum Hall.
  assert (Hdisp : forall a, Keys.isPress a = false -> a <> LongPress ->
            Keys.summarises (dispatch hs a h)
            /\ Forall (Keys.allowed hs) (outputs (dispatch hs a h))).
  { intros a Ha Hl. split.
    - apply (summarises_gesture h _ a (dispatch_outputs hs a h)); [| exact Hsum].
      rewrite dispatch_state, Ha, Z.add_0_r. reflexivity.
    - rewrite dispatch_outputs. apply Forall_app.
      split; [exact Hall | apply calls_allowed; exact Hl]. }
  rewrite onInput_meaning.
  destruct (Keys.meaning input key) as [a | | |] eqn:Hm.
  - apply Hdisp; [exact (meaning_act_not_press input key a Hm)
                 | exact (meaning_act_not_long input key a Hm)].
  - destruct (onEscape hs) eqn:He; [apply Hdisp; [reflexivity | discriminate] |].
    split.
    + apply (summarises_same h); [apply dispatched_emit_exit | reflexivity
                                   | exact Hsum].
    + cbn [emit outputs]. apply Forall_app. split; [exact Hall |].
      constructor; [exact He | constructor].
  - destruct ((now - lastPressRef h <? DOUBLE_PRESS_WINDOW)
              && pendingPressRef h) eqn:Hc.
    + destruct (onActivate_double hs now h Hwf Hc) as (_ & _ & _ & _ & Ho).
      split.
      * apply (summarises_gesture h _ DoublePress Ho); [| exact Hsum].
        apply onActivate_double_state; exact Hc.
      * rewrite Ho. apply Forall_app.
        split; [exact Hall | apply calls_allowed; discriminate].
    + destruct (onActivate_single hs now h Hwf Hc) as (_ & _ & Ho).
      split.
      * apply (summarises_same h); [unfold dispatched; rewrite Ho; reflexivity
                                   | apply onActivate_single_state; assumption
                                   | exact Hsum].
      * rewrite Ho. exact Hall.
  - split; assumption.
Qed.

Lemma run_facts (es : list Event) (h : Hook) :
  wellFormed h -> Keys.summarises h -> Forall (Keys.allowed hs) (outputs h) ->
  Keys.summarises (run hs es h)
  /\ Forall (Keys.allowed hs) (outputs (run hs es h)).
Proof.
  revert h. induction es as [| e es IH]; intros h Hwf Hsum Hall.
  - split; assumption.
  - cbn [run fold_left].
    change (fold_left (fun h0 e0 => step hs e0 h0) es (step hs e h))
      with (run hs es (step hs e h)).
    destruct (step_wf hs e h Hwf) as (Hwf' & _).
    apply IH; [exact Hwf' | |];
      destruct e as [now input key | now]; cbn [step];
      destruct (advance_facts now h Hwf Hsum Hall) as (Hs1 & Ha1);
      destruct (advance_wf hs now h Hwf) as (Hw1 & _);
      try assumption;
      apply (onInput_facts now input key _ Hw1 Hs1 Ha1).
Qed.

(** X3.  The [InputState] the hook returns is determined by what has been
    dispatched: [lastAction] is the last dispatched action ([null] before
    the first), [pressCount] is the number of [press] and [doublePress]
    actions dispatched, and [isLongPressing] is never set. *)
Theorem inputState_summary (es : list Event) :
  let h := run hs es mounted in
  lastAction (state h) = last (map Some (dispatched h)) None
  /\ pressCount (state h)
     = Z.of_nat (List.length (filter Keys.isPress (dispatched h)))
  /\ isLongPressing (state h) = false.
Proof.
  apply (run_facts es mounted (mounted_wf)).
  - repeat split.
  - constructor.
Qed.

(** X4.  Whatever the keys and their timing: [longPress] is never
    dispatched and [onLongPress] is never called; a handler is only ever
    called when the caller supplied it; and the application is only exited
    when no [onEscape] was supplied. *)
Theorem outputs_allowed (es : list Event) :
  ~ In (Dispatched LongPress) (outputs (run hs es mounted))
  /\ ~ In (Called LongPress) (outputs (run hs es mounted))
  /\ (forall a, In (Called a) (outputs (run hs es mounted)) ->
                handlerFor hs a = true)
  /\ (In Exited (outputs (run hs es mounted)) -> onEscape hs = false).
Proof.
  destruct (run_facts es mounted mounted_wf) as (_ & Hall).
  - repeat split.
  - constructor.
  - rewrite Forall_forall in Hall.
    split; [intros Hin; exact (Hall _ Hin eq_refl) |].
    split; [intros Hin; exact (proj2 (Hall _ Hin) eq_refl) |].
    split; [intros a Hin; exact (proj1 (Hall _ Hin)) |].
    intros Hin; exact (Hall _ Hin).
Qed.

(** A press that leaves a press pending has armed its two timers and has
    dispatched nothing. *)
Lemma pending_press_armed (t : Z) (h : Hook) :
  wellFormed h -> pendingPressRef (onActivate hs t h) = true ->
  armed (onActivate hs t h) (nextHandle h) t
  /\ outputs (onActivate hs t h) = outputs h
  /\ wellFormed (onActivate hs t h).
Proof.
  intros Hwf Hpend.
  destruct ((t - lastPressRef h <? DOUBLE_PRESS_WINDOW)
            && pendingPressRef h) eqn:Hc.
  - destruct (onActivate_double hs t h Hwf Hc) as ((_ & Hp) & _). congruence.
  - destruct (onActivate_single hs t h Hwf Hc) as (Ha & Hn & Ho).
    split; [exact Ha |]. split; [exact Ho |].
    split; [| right; exists (nextHandle h), t; exact Ha].
    destruct Ha as (_ & Hl & Hd & _).
    split; intros x E; [rewrite Hl in E | rewrite Hd in E];
      injection E as <-; rewrite Hn; lia.
Qed.

(** X5.  Single press: after an Enter / Space press at [t] that leaves a
    press pending, nothing at all happens before [t + 250]; the first tick at
    or after [t + 250] dispatches [press], once, and leaves no timer armed
    and no press pending.  The press itself dispatches nothing. *)
Theorem single_press_timing (es : list Event) (t now : Z)
        (input : string) (key : Key) :
  let h0 := run hs es mounted in
  let h1 := step hs (KeyEvent t input key) h0 in
  isActivate input key = true -> pendingPressRef h1 = true ->
  outputs h1 = outputs (advance hs t h0)
  /\ (now < t + DOUBLE_PRESS_WINDOW -> step hs (Tick now) h1 = h1)
  /\ (t + DOUBLE_PRESS_WINDOW <= now ->
      outputs (step hs (Tick now) h1)
        = outputs h1 ++ Dispatched Press :: calls hs Press
      /\ timers (step hs (Tick now) h1) = []
      /\ pendingPressRef (step hs (Tick now) h1) = false).
Proof.
  intros h0 h1 Hact Hpend.
  destruct (run_wf hs es mounted mounted_wf) as (Hw0 & _).
  destruct (advance_wf hs t (run hs es mounted) Hw0) as (Hwa & _).
  fold h0 in Hwa.
  assert (Hh1 : h1 = onActivate hs t (advance hs t h0))
    by (apply onInput_activate; exact Hact).
  rewrite Hh1 in Hpend |- *.
  destruct (pending_press_armed t _ Hwa Hpend) as (Harm & Ho & _).
  split; [exact Ho |]. split.
  - intros Hnow. cbn [step].
    apply (advance_armed_early hs now _ _ t Harm Hnow).
  - intros Hnow. cbn [step].
    destruct (advance_armed_late hs now _ _ t Harm Hnow)
      as ((Ht & Hp) & Hout & _).
    repeat split; assumption.
Qed.

Lemma nav_key_step (now : Z) (input : string) (key : Key)
      (a : InputAction) (h : Hook) :
  Keys.meaning input key = Keys.Act a ->
  let h' := step hs (KeyEvent now input key) h in
  outputs h' = outputs (advance hs now h) ++ Dispatched a :: calls hs a
  /\ sameTimers (advance hs now h) h'.
Proof.
  intros Hm h'. subst h'. cbn [step]. rewrite onInput_meaning, Hm.
  split; [apply dispatch_outputs | apply dispatch_refs].
Qed.

(** X6.  Arrow keys, [hjkl] and Tab are dispatched at once, whatever the
    press state, and leave the timers, the refs and the pending press
    untouched. *)
Theorem navigation_is_immediate (now : Z) (input : string) (key : Key)
        (a : InputAction) (h : Hook) :
  Keys.meaning input key = Keys.Act a ->
  let h' := step hs (KeyEvent now input key) h in
  outputs h' = outputs (advance hs now h) ++ Dispatched a :: calls hs a
  /\ sameTimers (advance hs now h) h'.
Proof. exact (nav_key_step now input key a h). Qed.

(** X7.  A navigation key between the two presses of a double press does not
    break it: Enter at [t] (pending), a navigation key at [tk], Enter at
    [t'], all within 250 ms of [t], dispatch the navigation action and then
    [doublePress]. *)
Theorem double_press_across_navigation (es : list Event) (t tk t' : Z)
        (input : string) (key : Key) (a : InputAction) :
  let h1 := step hs (pressAt t) (run hs es mounted) in
  pendingPressRef h1 = true ->
  Keys.meaning input key = Keys.Act a ->
  t <= tk <= t' -> t' < t + DOUBLE_PRESS_WINDOW ->
  dispatched (run hs [KeyEvent tk input key; pressAt t'] h1)
  = dispatched h1 ++ [a; DoublePress].
Proof.
  intros h1 Hpend Hm Htk Ht'.
  destruct (run_wf hs es mounted mounted_wf) as (Hw0 & _).
  destruct (advance_wf hs t (run hs es mounted) Hw0) as (Hwa & _).
  assert (Hh1 : h1 = onActivate hs t (advance hs t (run hs es mounted)))
    by reflexivity.
  rewrite Hh1 in Hpend.
  destruct (pending_press_armed t _ Hwa Hpend) as (Harm & _ & Hw1).
  rewrite <- Hh1 in Harm, Hw1.
  set (h2 := step hs (KeyEvent tk input key) h1).
  destruct (nav_key_step tk input key a h1 Hm) as (Ho2 & Hsame).
  fold h2 in Ho2, Hsame.
  rewrite (advance_armed_early hs tk h1 _ t Harm) in Ho2, Hsame by lia.
  assert (Harm2 : armed h2 (nextHandle (advance hs t (run hs es mounted))) t).
  { destruct Hsame as (E1 & E2 & E3 & E4 & E5 & E6 & _).
    unfold armed. rewrite E1, E2, E3, E4, E5, E6. exact Harm. }
  assert (Hw2 : wellFormed h2) by exact (wellFormed_same h1 h2 Hsame Hw1).
  change (run hs [KeyEvent tk input key; pressAt t'] h1)
    with (onActivate hs t' (advance hs t' h2)).
  rewrite (advance_armed_early hs t' h2 _ t Harm2 Ht').
  destruct (onActivate_double hs t' h2 Hw2) as (_ & _ & _ & _ & Ho3).
  { destruct Harm2 as (_ & _ & _ & Hpd & _ & Hlast). rewrite Hpd, Hlast.
    destruct (Z.ltb_spec (t' - t) DOUBLE_PRESS_WINDOW); [reflexivity | lia]. }
  rewrite (dispatched_gesture hs h2 _ DoublePress Ho3).
  rewrite (dispatched_gesture hs h1 h2 a Ho2), <- app_assoc. reflexivity.
Qed.

(** X8.  A third quick press starts over: after a double press (Enter at
    [t1], pending, and Enter at [t2 < t1 + 250]) a further Enter at [t3],
    however soon, is a new pending press, which is resolved as [press] once
    250 ms have passed.  Three quick presses thus give [doublePress] and then
    [press]. *)
Theorem third_press_starts_over (es : list Event) (t1 t2 t3 now : Z) :
  let h1 := step hs (pressAt t1) (run hs es mounted) in
  pendingPressRef h1 = true ->
  t1 <= t2 < t1 + DOUBLE_PRESS_WINDOW -> t2 <= t3 ->
  t3 + DOUBLE_PRESS_WINDOW <= now ->
  dispatched (run hs [pressAt t2; pressAt t3; Tick now] h1)
  = dispatched h1 ++ [DoublePress; Press].
Proof.
  intros h1 Hpend Ht2 Ht3 Hnow.
  destruct (run_wf hs es mounted mounted_wf) as (Hw0 & _).
  destruct (advance_wf hs t1 (run hs es mounted) Hw0) as (Hwa & _).
  assert (Hh1 : h1 = onActivate hs t1 (advance hs t1 (run hs es mounted)))
    by reflexivity.
  rewrite Hh1 in Hpend.
  destruct (pending_press_armed t1 _ Hwa Hpend) as (Harm & _ & Hw1).
  rewrite <- Hh1 in Harm, Hw1.
  set (h2 := step hs (pressAt t2) h1).
  assert (Hh2 : h2 = onActivate hs t2 h1).
  { unfold h2. cbn [step pressAt].
    rewrite (advance_armed_early hs t2 h1 _ t1 Harm) by lia. reflexivity. }
  destruct (onActivate_double hs t2 h1 Hw1) as ((Htm & Hp) & _ & _ & _ & Ho2).
  { destruct Harm as (_ & _ & _ & Hpd & _ & Hlast). rewrite Hpd, Hlast.
    destruct (Z.ltb_spec (t2 - t1) DOUBLE_PRESS_WINDOW); [reflexivity | lia]. }
  rewrite <- Hh2 in Htm, Hp, Ho2.
  assert (Hw2 : wellFormed h2)
    by (destruct (step_wf hs (pressAt t2) h1 Hw1) as (H & _); exact H).
  set (h3 := step hs (pressAt t3) h2).
  assert (Hh3 : h3 = onActivate hs t3 h2).
  { unfold h3. cbn [step pressAt]. rewrite (advance_idle hs t3 h2 Htm).
    reflexivity. }
  destruct (onActivate_single hs t3 h2 Hw2) as (Harm3 & _ & Ho3).
  { rewrite Hp. apply Bool.andb_false_r. }
  rewrite <- Hh3 in Harm3, Ho3.
  change (run hs [pressAt t2; pressAt t3; Tick now] h1)
    with (advance hs now h3).
  destruct (advance_armed_late hs now h3 _ t3 Harm3 Hnow) as (_ & Ho4 & _).
  rewrite (dispatched_gesture hs h3 _ Press Ho4).
  assert (Hd3 : dispatched h3 = dispatched h2)
    by (unfold dispatched; rewrite Ho3; reflexivity).
  rewrite Hd3, (dispatched_gesture hs h1 h2 DoublePress Ho2), <- app_assoc.
  reflexivity.
Qed.

End InputMore.

Lemma outputs_allowed_witness :
  Input.handlerFor Input.allHandlers Input.Press = true.
Proof.
  destruct (outputs_allowed Input.allHandlers
              [Input.pressAt 1000; Input.Tick 1250]) as (_ & _ & H & _).
  apply H. right. left. reflexivity.
Defined.

Lemma single_press_timing_witness :
  Input.outputs
    (Input.run Input.allHandlers [Input.pressAt 1000; Input.Tick 1250]
               Input.mounted)
  = [] ++ [Input.Dispatched Input.Press; Input.Called Input.Press].
Proof.
  destruct (single_press_timing Input.allHandlers [] 1000 1250 EmptyString
              Input.enterKey eq_refl eq_refl) as (_ & _ & H).
  apply H. unfold Input.DOUBLE_PRESS_WINDOW. lia.
Defined.

Lemma navigation_is_immediate_witness :
  Input.outputs
    (Input.step Input.allHandlers (Input.KeyEvent 1100 "l" Input.noKey)
       (Input.run Input.allHandlers [Input.pressAt 1000] Input.mounted))
  = [] ++ [Input.Dispatched Input.Right; Input.Called Input.Right].
Proof.
  apply (navigation_is_immediate Input.allHandlers 1100 "l" Input.noKey
           Input.Right).
  reflexivity.
Defined.

Lemma double_press_across_navigation_witness :
  Input.dispatched
    (Input.run Input.allHandlers
       [Input.KeyEvent 1050 "l" Input.noKey; Input.pressAt 1100]
       (Input.step Input.allHandlers (Input.pressAt 1000) Input.mounted))
  = [] ++ [Input.Right; Input.DoublePress].
Proof.
  apply (double_press_across_navigation Input.allHandlers [] 1000 1050 1100
           "l" Input.noKey Input.Right);
    try reflexivity; unfold Input.DOUBLE_PRESS_WINDOW; lia.
Defined.

Lemma third_press_starts_over_witness :
  Input.dispatched
    (Input.run Input.allHandlers
       [Input.pressAt 1100; Input.pressAt 1150; Input.Tick 1400]
       (Input.step Input.allHandlers (Input.pressAt 1000) Input.mounted))
  = [] ++ [Input.DoublePress; Input.Press].
Proof.
  apply (third_press_starts_over Input.allHandlers [] 1000 1100 1150 1400);
    try reflexivity; unfold Input.DOUBLE_PRESS_WINDOW; lia.
Defined.

(** ** [useRingNav]: keys and the index *)

Section RingNavFacts.
Local Open Scope Z_scope.

Variable itemCount : Z.
Variable o : RingNav.Options.

Lemma skipn_fresh {A : Type} (l extra : list A) :
  skipn (List.length l) (l ++ extra) = extra.
Proof.
  rewrite skipn_app, skipn_all, Nat.sub_diag. reflexivity.
Qed.

Lemma step_fresh (e : Input.Event) (s : RingNav.State) (extra : list Input.Output) :
  Input.outputs (Input.step (RingNav.handlers o) e (RingNav.input s))
    = Input.outputs (RingNav.input s) ++ extra ->
  RingNav.index (RingNav.step itemCount o e s)
    = fold_left (fun i out => RingNav.react itemCount o out i) extra
                (RingNav.index s).
Proof.
  intros E. unfold RingNav.step. cbn [RingNav.index].
  rewrite E, skipn_fresh. reflexivity.
Qed.

Lemma run_input (es : list Input.Event) (s : RingNav.State) :
  RingNav.input (RingNav.run itemCount o es s)
  = Input.run (RingNav.handlers o) es (RingNav.input s).
Proof.
  revert s. induction es as [| e es IH]; intros s; [reflexivity |].
  cbn [RingNav.run Input.run fold_left].
  change (fold_left (fun s0 e0 => RingNav.step itemCount o e0 s0) es
                    (RingNav.step itemCount o e s))
    with (RingNav.run itemCount o es (RingNav.step itemCount o e s)).
  rewrite IH. reflexivity.
Qed.

(** What the handler calls of one dispatched action do to the index. *)
Definition turn (a : Input.InputAction) (i : Z) : Z :=
  match a with
  | Input.Left => Nav.move itemCount (RingNav.wrap o) (-1) i
  | Input.Right => Nav.move itemCount (RingNav.wrap o) 1 i
  | _ => i
  end.

Lemma react_gesture (a : Input.InputAction) (i : Z) :
  fold_left (fun i out => RingNav.react itemCount o out i)
            (Input.Dispatched a :: Input.calls (RingNav.handlers o) a) i
  = turn a i.
Proof.
  destruct a; unfold Input.calls; simpl;
    try destruct (RingNav.onBack o); reflexivity.
Qed.

Lemma react_app (l1 l2 : list Input.Output) (i : Z) :
  fold_left (fun i out => RingNav.react itemCount o out i) (l1 ++ l2) i
  = fold_left (fun i out => RingNav.react itemCount o out i) l2
      (fold_left (fun i out => RingNav.react itemCount o out i) l1 i).
Proof. apply fold_left_app. Qed.

Lemma index_step (es : list Input.Event) (e : Input.Event) :
  let s := RingNav.run itemCount o es RingNav.mounted in
  RingNav.index (RingNav.step itemCount o e s)
  = match e with
    | Input.KeyEvent _ input key =>
        match Keys.meaning input key with
        | Keys.Act Input.Left =>
            Nav.move itemCount (RingNav.wrap o) (-1) (RingNav.index s)
        | Keys.Act Input.Right =>
            Nav.move itemCount (RingNav.wrap o) 1 (RingNav.index s)
        | _ => RingNav.index s
        end
    | Input.Tick _ => RingNav.index s
    end.
Proof.
  intros s.
  set (hs := RingNav.handlers o).
  assert (Hwf : Input.wellFormed (RingNav.input s)).
  { unfold s. rewrite run_input.
    apply (run_wf hs es Input.mounted mounted_wf). }
  assert (Hadv : forall now, exists x,
            Input.outputs (Input.advance hs now (RingNav.input s))
              = Input.outputs (RingNav.input s) ++ x
            /\ forall i, fold_left (fun i out => RingNav.react itemCount o out i)
                                   x i = i).
  { intros now.
    destruct (advance_wf hs now (RingNav.input s) Hwf) as (_ & [E | E]).
    - exists []. rewrite E, app_nil_r. split; [reflexivity | reflexivity].
    - eexists. split; [exact E |]. intros i. apply react_gesture. }
  destruct e as [now input key | now].
  - destruct (Hadv now) as (x & Hx & Hid).
    destruct (advance_wf hs now (RingNav.input s) Hwf) as (Hwa & _).
    assert (Hkey : exists y,
      Input.outputs (Input.step hs (Input.KeyEvent now input key)
                                (RingNav.input s))
        = Input.outputs (RingNav.input s) ++ x ++ y
      /\ forall i, fold_left (fun i out => RingNav.react itemCount o out i) y i
                   = match Keys.meaning input key with
                     | Keys.Act a => turn a i
                     | _ => i
                     end).
    { cbn [Input.step]. rewrite onInput_meaning.
      destruct (Keys.meaning input key) as [a | | |] eqn:Hm.
      - exists (Input.Dispatched a :: Input.calls hs a).
        rewrite dispatch_outputs, Hx, <- app_assoc.
        split; [reflexivity | intros i; apply react_gesture].
      - destruct (Input.onEscape hs).
        + exists (Input.Dispatched Input.Escape :: Input.calls hs Input.Escape).
          rewrite dispatch_outputs, Hx, <- app_assoc.
          split; [reflexivity | intros i; apply react_gesture].
        + exists [Input.Exited]. cbn [Input.emit Input.outputs].
          rewrite Hx, <- app_assoc. split; reflexivity.
      - destruct ((now - Input.lastPressRef (Input.advance hs now (RingNav.input s))
                   <? Input.DOUBLE_PRESS_WINDOW)
                  && Input.pendingPressRef (Input.advance hs now (RingNav.input s)))
          eqn:Hc.
        + destruct (onActivate_double hs now _ Hwa Hc) as (_ & _ & _ & _ & Ho).
          exists (Input.Dispatched Input.DoublePress
                  :: Input.calls hs Input.DoublePress).
          rewrite Ho, Hx, <- app_assoc.
          split; [reflexivity | intros i; apply react_gesture].
        + destruct (onActivate_single hs now _ Hwa Hc) as (_ & _ & Ho).
          exists []. rewrite Ho, Hx, app_nil_r. split; reflexivity.
      - exists []. rewrite Hx, app_nil_r. split; reflexivity. }
    destruct Hkey as (y & Hy & Hturn).
    rewrite (step_fresh _ s (x ++ y) Hy), react_app, Hid, Hturn.
    destruct (Keys.meaning input key) as [[] | | |]; reflexivity.
  - destruct (Hadv now) as (x & Hx & Hid).
    rewrite (step_fresh (Input.Tick now) s x Hx). apply Hid.
Qed.

(** X9.  In [useRingNav] the index moves on the left and right keys only:
    a left key ([h] or the left arrow) applies [move(-1)], a right key
    ([l] or the right arrow) applies [move(1)], at once and whatever press
    is pending; every other key, and every timer that runs, leaves the index
    as it is. *)
Theorem ringNav_index_step (es : list Input.Event) (e : Input.Event) :
  let s := RingNav.run itemCount o es RingNav.mounted in
  RingNav.index (RingNav.step itemCount o e s)
  = match e with
    | Input.KeyEvent _ input key =>
        match Keys.meaning input key with
        | Keys.Act Input.Left =>
            Nav.move itemCount (RingNav.wrap o) (-1) (RingNav.index s)
        | Keys.Act Input.Right =>
            Nav.move itemCount (RingNav.wrap o) 1 (RingNav.index s)
        | _ => RingNav.index s
        end
    | Input.Tick _ => RingNav.index s
    end.
Proof. exact (index_step es e). Qed.

(** X10.  Over a non-empty collection the index of [useRingNav] is an index
    of the collection after any sequence of keys and ticks, with either wrap
    policy. *)
Theorem ringNav_index_in_range (es : list Input.Event) :
  0 < itemCount ->
  0 <= RingNav.index (RingNav.run itemCount o es RingNav.mounted) < itemCount.
Proof.
  intros Hc. induction es as [| e es IH] using rev_ind.
  - simpl. lia.
  - unfold RingNav.run. rewrite fold_left_app. cbn [fold_left].
    change (fold_left (fun s0 e0 => RingNav.step itemCount o e0 s0) es
                      RingNav.mounted)
      with (RingNav.run itemCount o es RingNav.mounted).
    rewrite index_step.
    destruct e as [now input key | now]; [| exact IH].
    destruct (Keys.meaning input key) as [[] | | |]; try exact IH;
      apply move_in_range; exact Hc.
Qed.

End RingNavFacts.

Lemma ringNav_index_in_range_witness :
  (0 <= RingNav.index
          (RingNav.run 5 (RingNav.mkOptions true true true)
             [Input.KeyEvent 10 "h" Input.noKey] RingNav.mounted) < 5)%Z.
Proof.
  apply (ringNav_index_in_range 5 (RingNav.mkOptions true true true)).
  lia.
Defined.

(** ** The window builder, the dots and the labels *)

Section ViewMore.
Local Open Scope Z_scope.

Lemma floor_unique (x : Q) (a : Z) :
  (inject_Z a <= x)%Q -> (x < inject_Z (a + 1))%Q -> Qfloor x = a.
Proof.
  intros Hlo Hhi.
  pose proof (Qfloor_le x) as Hf. pose proof (Qlt_floor x) as Hc.
  assert (H1 : (inject_Z (Qfloor x) < inject_Z (a + 1))%Q)
    by (eapply Qle_lt_trans; eassumption).
  assert (H2 : (inject_Z a < inject_Z (Qfloor x + 1))%Q)
    by (eapply Qle_lt_trans; eassumption).
  rewrite <- Zlt_Qlt in H1, H2. lia.
Qed.

Lemma floor_shift (x : Q) (k : Z) :
  Qfloor (x + inject_Z k) = Qfloor x + k.
Proof.
  pose proof (Qfloor_le x) as Hf. pose proof (Qlt_floor x) as Hc.
  apply floor_unique.
  - rewrite inject_Z_plus. lra.
  - replace (Qfloor x + k + 1) with ((Qfloor x + 1) + k) by lia.
    rewrite inject_Z_plus. lra.
Qed.

(** [Math.round] commutes with whole steps. *)
Lemma round_shift (x : Q) (k : Z) :
  JS.round (x + inject_Z k) = JS.round x + k.
Proof.
  unfold JS.round. rewrite <- floor_shift.
  apply floor_unique.
  - pose proof (Qfloor_le (x + (1 # 2) + inject_Z k)). lra.
  - pose proof (Qlt_floor (x + (1 # 2) + inject_Z k)). lra.
Qed.

Lemma wrapIndex_mod (n x : Z) : 0 < n -> View.wrapIndex n x = x mod n.
Proof. intros Hn. apply rem_rem_modulo; exact Hn. Qed.

(** X11.  The window slides with the position: one whole step of the
    position moves every slot to the item that was one slot further, and a
    whole number of turns of a non-empty ring gives the very same window. *)
Theorem visibleSlots_slide (items : list View.RingItem) (pos : Q) (w k : Z) :
  0 < JS.length items ->
  (forall off,
      View.index (View.slotAt items (pos + inject_Z k) off)
        = View.index (View.slotAt items pos (off + k))
      /\ View.item (View.slotAt items (pos + inject_Z k) off)
         = View.item (View.slotAt items pos (off + k)))
  /\ View.visibleSlots items (pos + inject_Z (k * JS.length items)) w
     = View.visibleSlots items pos w.
Proof.
  intros HN. split.
  - intros off. unfold View.slotAt. cbn [View.index View.item].
    rewrite round_shift.
    replace (JS.round pos + k + off) with (JS.round pos + (off + k)) by lia.
    split; reflexivity.
  - unfold View.visibleSlots. apply map_ext. intros off.
    unfold View.slotAt. rewrite round_shift, !wrapIndex_mod by exact HN.
    replace (JS.round pos + k * JS.length items + off)
      with (JS.round pos + off + k * JS.length items) by lia.
    rewrite Z.mod_add by lia. reflexivity.
Qed.

Lemma visibleSlots_slide_witness :
  View.visibleSlots View.fiveItems ((1 # 3) + inject_Z (2 * JS.length View.fiveItems)) 5
  = View.visibleSlots View.fiveItems (1 # 3) 5.
Proof.
  apply (visibleSlots_slide View.fiveItems (1 # 3) 5 2).
  unfold JS.length. simpl. lia.
Defined.

(** X12.  An even window size gives one slot more than asked for (the loop
    runs over [-floor(w/2) .. floor(w/2)]), and a negative one gives none. *)
Theorem visibleSlots_even (items : list View.RingItem) (pos : Q) (w : Z) :
  (0 <= w -> Z.even w = true ->
   JS.length (View.visibleSlots items pos w) = w + 1)
  /\ (w < 0 -> View.visibleSlots items pos w = []).
Proof.
  split.
  - intros Hw He. apply Z.even_spec in He. destruct He as [m Hm]. subst w.
    unfold View.visibleSlots, JS.length.
    rewrite length_map, offsets_length.
    replace (2 * m / 2) with m by (apply Z.div_unique_exact; lia).
    lia.
  - intros Hw. unfold View.visibleSlots, View.offsets.
    assert (H : w / 2 < 0) by (apply Z.div_lt_upper_bound; lia).
    replace (Z.to_nat (2 * (w / 2) + 1)) with 0%nat by lia.
    reflexivity.
Qed.

Lemma visibleSlots_even_witness :
  JS.length (View.visibleSlots View.fiveItems 0 4) = 4 + 1.
Proof.
  apply (visibleSlots_even View.fiveItems 0 4); [lia | reflexivity].
Defined.

(** X13.  While the rounded position is not negative, the selected item is
    the item of the centre slot, and it is defined. *)
Theorem selectedItem_is_centre (items : list View.RingItem) (pos : Q) :
  0 < JS.length items -> 0 <= JS.round pos ->
  View.selectedItem items pos = View.item (View.slotAt items pos 0)
  /\ View.selectedItem items pos <> None.
Proof.
  intros HN Hpos.
  assert (E : View.selectedItem items pos = View.item (View.slotAt items pos 0)).
  { unfold View.selectedItem, View.slotAt. cbn [View.item].
    rewrite wrapIndex_mod by exact HN. rewrite Z.add_0_r.
    unfold JS.rem. rewrite Z.rem_mod_nonneg by lia. reflexivity. }
  split; [exact E |]. rewrite E.
  apply (slotAt_spec items pos 0 HN).
Qed.

Lemma selectedItem_is_centre_witness :
  View.selectedItem View.fiveItems (47 # 10) <> None.
Proof.
  apply (selectedItem_is_centre View.fiveItems (47 # 10));
    [unfold JS.length; simpl; lia | vm_compute; discriminate].
Defined.

End ViewMore.

Section RingPartsFacts.
Local Open Scope Z_scope.

Lemma slice0_length {A : Type} (s : list A) (e : Z) :
  JS.length (JSString.slice0 s e)
  = if e <? 0 then Z.max (JS.length s + e) 0 else Z.min e (JS.length s).
Proof.
  unfold JSString.slice0, JS.length. rewrite length_firstn.
  destruct (Z.ltb_spec e 0); lia.
Qed.

Lemma slice0_prefix {A : Type} (s : list A) (e : Z) :
  0 <= e -> JSString.slice0 s e = firstn (Z.to_nat e) s.
Proof.
  intros He. unfold JSString.slice0, JS.length.
  destruct (Z.ltb_spec e 0); [lia |].
  destruct (Z.le_gt_cases e (Z.of_nat (List.length s))) as [Hle | Hgt].
  - rewrite Z.min_l by exact Hle. reflexivity.
  - rewrite Z.min_r by lia. rewrite Nat2Z.id.
    rewrite !firstn_all2 by lia. reflexivity.
Qed.

Lemma count_hits (r : Z) (n : nat) :
  0 <= r < Z.of_nat n ->
  List.length (filter (fun b : bool => b)
                 (map (fun i => Z.of_nat i =? r) (seq 0 n))) = 1%nat.
Proof.
  intros Hr.
  rewrite <- (seq_one_hit (Z.to_nat r) 0 n) by lia.
  generalize (seq 0 n). intros l. induction l as [| i l IH]; [reflexivity |].
  cbn [map filter].
  destruct (Z.eqb_spec (Z.of_nat i) r) as [E | E];
    destruct (Nat.eqb_spec (Z.to_nat r) i) as [E' | E'];
    cbn [List.length]; try lia.
Qed.

(** X14.  The position dots: there are none ([null]) exactly when they are
    switched off or there is at most one item; otherwise there are
    [min (items.length, 9)] dots, and while the rounded position is not
    negative exactly one of them is active, the one numbered
    [round(position) % min (items.length, 9)]. *)
Theorem indicators_spec (items : list View.RingItem) (pos : Q) (show : bool) :
  (RingParts.indicators items pos show = None
   <-> show = false \/ JS.length items <= 1)
  /\ (forall dots,
        RingParts.indicators items pos show = Some dots ->
        JS.length dots = Z.min (JS.length items) 9
        /\ (0 <= JS.round pos ->
            List.length (filter (fun b : bool => b) dots) = 1%nat
            /\ JS.get dots (JS.rem (JS.round pos) (Z.min (JS.length items) 9))
               = Some true)).
Proof.
  unfold RingParts.indicators.
  destruct show; cbn [negb orb];
    [| split; [split; [intros _; left; reflexivity | reflexivity]
              | intros dots E; discriminate]].
  destruct (Z.leb_spec (JS.length items) 1) as [Hle | Hgt].
  { split; [split; [intros _; right; exact Hle | reflexivity]
           | intros dots E; discriminate]. }
  split.
  { split; [discriminate | intros [E | E]; [discriminate | lia]]. }
  intros dots E. injection E as <-.
  set (m := Z.min (JS.length items) 9).
  assert (Hm : 0 < m) by (unfold m; lia).
  assert (Hlen : List.length (JSString.slice0 items m) = Z.to_nat m).
  { pose proof (slice0_length items m) as H. unfold JS.length in H.
    destruct (Z.ltb_spec m 0); [lia |].
    unfold m in *. unfold JS.length in *. lia. }
  rewrite Hlen.
  split; [unfold JS.length; rewrite length_map, length_seq; lia |].
  intros Hpos.
  assert (Hr : 0 <= JS.rem (JS.round pos) m < m).
  { unfold JS.rem. rewrite Z.rem_mod_nonneg by lia.
    apply Z.mod_pos_bound; exact Hm. }
  split; [apply count_hits; lia |].
  unfold JS.get. destruct (Z.ltb_spec (JS.rem (JS.round pos) m) 0); [lia |].
  rewrite nth_error_map, nth_error_seq.
  destruct (Nat.ltb_spec (Z.to_nat (JS.rem (JS.round pos) m)) (Z.to_nat m));
    [| lia].
  cbn [option_map Nat.add]. rewrite Z2Nat.id by lia.
  rewrite Z.eqb_refl. reflexivity.
Qed.

Lemma indicators_spec_witness :
  exists dots,
    RingParts.indicators View.fiveItems (7 # 2) true = Some dots
    /\ List.length (filter (fun b : bool => b) dots) = 1%nat.
Proof.
  eexists. split; [reflexivity |].
  apply (indicators_spec View.fiveItems (7 # 2) true);
    [reflexivity | vm_compute; discriminate].
Defined.

Lemma rows_nth (maxVisible : Z) (k : nat) :
  (k < Z.to_nat maxVisible)%nat ->
  nth_error (VerticalRing.rows maxVisible) k = Some (Z.of_nat k).
Proof.
  intros Hk. unfold VerticalRing.rows.
  rewrite nth_error_map, nth_error_seq.
  destruct (Nat.ltb_spec k (Z.to_nat maxVisible)); [reflexivity | lia].
Qed.

(** X15.  [VerticalRing] shows exactly [maxVisible] rows, odd or even; over
    a non-empty collection every row holds an item, row [k] holds item
    [(round(position) - floor(maxVisible / 2) + k) mod N] at distance
    [|k - floor(maxVisible / 2)|], and exactly one row is at distance 0:
    the row [floor(maxVisible / 2)], which holds item
    [round(position) mod N]. *)
Theorem verticalRing_rows (items : list View.RingItem) (pos : Q)
        (maxVisible : Z) :
  let N := JS.length items in
  let rows := VerticalRing.visibleItems items pos maxVisible in
  0 < N -> 0 < maxVisible ->
  JS.length rows = maxVisible
  /\ (forall k, 0 <= k < maxVisible ->
       exists e,
         JS.get rows k = Some e
         /\ VerticalRing.distance e = Z.abs (k - maxVisible / 2)
         /\ VerticalRing.actualIndex e
            = (JS.round pos - maxVisible / 2 + k) mod N
         /\ VerticalRing.item e
            = nth_error items (Z.to_nat (VerticalRing.actualIndex e))
         /\ VerticalRing.item e <> None)
  /\ List.length (filter (fun e => VerticalRing.distance e =? 0) rows) = 1%nat
  /\ (exists e,
        JS.get rows (maxVisible / 2) = Some e
        /\ VerticalRing.distance e = 0
        /\ VerticalRing.actualIndex e = JS.round pos mod N).
Proof.
  intros N rows HN Hmax.
  assert (Hhalf : 0 <= maxVisible / 2 < maxVisible).
  { split; [apply Z.div_pos; lia | apply Z.div_lt_upper_bound; lia]. }
  assert (Hrow : forall k, 0 <= k < maxVisible ->
    exists e,
      JS.get rows k = Some e
      /\ VerticalRing.distance e = Z.abs (k - maxVisible / 2)
      /\ VerticalRing.actualIndex e
         = (JS.round pos - maxVisible / 2 + k) mod N
      /\ VerticalRing.item e
         = nth_error items (Z.to_nat (VerticalRing.actualIndex e))
      /\ VerticalRing.item e <> None).
  { intros k Hk. unfold rows, VerticalRing.visibleItems, JS.get.
    destruct (Z.ltb_spec k 0); [lia |].
    rewrite nth_error_map, rows_nth by lia.
    cbn [option_map]. rewrite Z2Nat.id by lia.
    eexists. split; [reflexivity |].
    cbn [VerticalRing.distance VerticalRing.actualIndex VerticalRing.item].
    fold N.
    pose proof (rem_rem_range (JS.round pos - maxVisible / 2 + k) N HN) as Hr.
    split; [reflexivity |].
    split; [apply rem_rem_modulo; exact HN |].
    apply (get_in_range items). exact Hr. }
  split.
  { unfold rows, VerticalRing.visibleItems, VerticalRing.rows, JS.length.
    rewrite !length_map, length_seq. lia. }
  split; [exact Hrow |].
  split.
  - unfold rows, VerticalRing.visibleItems, VerticalRing.rows.
    rewrite map_map.
    rewrite <- (seq_one_hit (Z.to_nat (maxVisible / 2)) 0 (Z.to_nat maxVisible))
      by lia.
    generalize (seq 0 (Z.to_nat maxVisible)). intros l.
    induction l as [| i l IH]; [reflexivity |].
    cbn [map filter VerticalRing.distance].
    destruct (Z.eqb_spec (Z.abs (Z.of_nat i - maxVisible / 2)) 0) as [E | E];
      destruct (Nat.eqb_spec (Z.to_nat (maxVisible / 2)) i) as [E' | E'];
      cbn [List.length]; try lia.
  - destruct (Hrow (maxVisible / 2) Hhalf) as (e & Hget & Hd & Hi & _).
    exists e. split; [exact Hget |].
    split; [rewrite Hd; lia |].
    rewrite Hi. f_equal. lia.
Qed.

Lemma verticalRing_rows_witness :
  JS.length (VerticalRing.visibleItems View.fiveItems (7 # 2) 4) = 4.
Proof.
  apply (verticalRing_rows View.fiveItems (7 # 2) 4);
    [unfold JS.length; simpl; lia | lia].
Defined.

(** X16.  Label truncation in [Ring] and [MiniRing]: a label that fits is
    kept; a longer one is cut to the first [maxLen - 1] units and an
    ellipsis, [maxLen] units in all, when [maxLen >= 1]; but when
    [maxLen <= 0] (a width too small for the depth) a non-empty label still
    comes out non-empty, ending in the ellipsis, so it overflows its
    width. *)
Theorem truncateTo_spec (maxLen : Z) (s : JSString.JSString) :
  (JS.length s <= maxLen -> JSString.truncateTo maxLen s = s)
  /\ (1 <= maxLen < JS.length s ->
      JSString.truncateTo maxLen s
        = firstn (Z.to_nat (maxLen - 1)) s ++ [JSString.ellipsis]
      /\ JS.length (JSString.truncateTo maxLen s) = maxLen)
  /\ (maxLen <= 0 -> s <> [] ->
      maxLen < JS.length (JSString.truncateTo maxLen s)
      /\ last (JSString.truncateTo maxLen s) JSString.space
         = JSString.ellipsis).
Proof.
  unfold JSString.truncateTo.
  split; [| split].
  - intros H. destruct (Z.ltb_spec maxLen (JS.length s)); [lia | reflexivity].
  - intros H. destruct (Z.ltb_spec maxLen (JS.length s)); [| lia].
    rewrite slice0_prefix by lia. split; [reflexivity |].
    unfold JS.length in *. rewrite length_app, length_firstn. cbn [List.length].
    lia.
  - intros H Hs.
    assert (0 < JS.length s)
      by (unfold JS.length; destruct s; [congruence | cbn [List.length]; lia]).
    destruct (Z.ltb_spec maxLen (JS.length s)); [| lia].
    split; [| apply last_last].
    unfold JS.length. rewrite length_app. cbn [List.length]. lia.
Qed.

Lemma truncateTo_spec_witness :
  JS.length (RingParts.itemLabel 20 1 [72; 101; 108; 108; 111; 33; 33]%N) = 6.
Proof.
  apply (truncateTo_spec 6 [72; 101; 108; 108; 111; 33; 33]%N).
  unfold JS.length. simpl. lia.
Defined.

(** X17.  A row label of [VerticalRing] always fills its column: for a
    column of at least one unit ([width - 4 >= 1]) it has exactly
    [width - 4] units, padded with spaces or cut with an ellipsis. *)
Theorem rowLabel_width (width : Z) (label : JSString.JSString) :
  1 <= width - 4 ->
  JS.length (VerticalRing.rowLabel width label) = width - 4.
Proof.
  intros Hw. unfold VerticalRing.rowLabel.
  destruct (Z.ltb_spec (width - 4) (JS.length label)).
  - rewrite slice0_prefix by lia. unfold JS.length in *.
    rewrite length_app, length_firstn. cbn [List.length]. lia.
  - unfold JSString.padEnd, JS.length in *.
    rewrite length_app, repeat_length. lia.
Qed.

Lemma rowLabel_width_witness :
  JS.length (VerticalRing.rowLabel 30 [72; 105]%N) = 30 - 4.
Proof. apply (rowLabel_width 30 [72; 105]%N). lia. Defined.

End RingPartsFacts.

(** ** The animators: landing and rest *)

Section AnimMore.
Local Open Scope Q_scope.

Ltac qlra' :=
  unfold Qdiv in *; change (/ 2) with (1 # 2) in *; lra.

Lemma addWhileNegative_congruent (total : Q) (fuel : nat) (v r : Q) :
  Anim.addWhileNegative fuel total v = Some r ->
  exists m : Z, r == v + inject_Z m * total.
Proof.
  revert v. induction fuel as [| fuel IH]; intros v H; [discriminate |].
  cbn [Anim.addWhileNegative] in H.
  destruct (Qlt_le_dec v 0).
  - destruct (IH _ H) as (m & Hm). exists (m + 1)%Z.
    rewrite inject_Z_plus, Hm. change (inject_Z 1) with 1. ring.
  - injection H as <-. exists 0%Z. change (inject_Z 0) with 0. ring.
Qed.

Lemma subWhileAtLeast_congruent (total : Q) (fuel : nat) (v r : Q) :
  Anim.subWhileAtLeast fuel total v = Some r ->
  exists m : Z, r == v + inject_Z m * total.
Proof.
  revert v. induction fuel as [| fuel IH]; intros v H; [discriminate |].
  cbn [Anim.subWhileAtLeast] in H.
  destruct (Qlt_le_dec v total).
  - injection H as <-. exists 0%Z. change (inject_Z 0) with 0. ring.
  - destruct (IH _ H) as (m & Hm). exists (m - 1)%Z.
    unfold Z.sub. rewrite inject_Z_plus, Hm.
    change (inject_Z (- (1))) with (- (1)). ring.
Qed.

(** The normalised value differs from the given one by whole turns. *)
Lemma normalize_congruent (total v r : Q) :
  Anim.normalize total v = Some r ->
  exists m : Z, r == v + inject_Z m * total.
Proof.
  unfold Anim.normalize. intros H.
  destruct (Anim.addWhileNegative _ total v) as [v' |] eqn:E; [| discriminate].
  destruct (addWhileNegative_congruent _ _ _ _ E) as (m1 & H1).
  destruct (subWhileAtLeast_congruent _ _ _ _ H) as (m2 & H2).
  exists (m1 + m2)%Z. rewrite inject_Z_plus, H2, H1. ring.
Qed.

(** Two positions of the ring that differ by whole turns are the same. *)
Lemma inRange_congruent (total a b : Q) (m : Z) :
  0 < total -> Anim.inRange total a -> Anim.inRange total b ->
  a == b + inject_Z m * total -> a == b.
Proof.
  intros Ht [Ha0 Ha1] [Hb0 Hb1] E.
  destruct (Z.lt_trichotomy m 0) as [Hm | [-> | Hm]].
  - exfalso.
    assert (H : inject_Z m <= - (1))
      by (change (- (1)) with (inject_Z (-1)); rewrite <- Zle_Qle; lia).
    assert (inject_Z m * total <= - (1) * total)
      by (apply Qmult_le_compat_r; lra).
    lra.
  - rewrite E. change (inject_Z 0) with 0. ring.
  - exfalso.
    assert (H : 1 <= inject_Z m)
      by (change 1 with (inject_Z 1); rewrite <- Zle_Qle; lia).
    assert (1 * total <= inject_Z m * total)
      by (apply Qmult_le_compat_r; lra).
    lra.
Qed.

Lemma shortestDelta_cases (total current target : Q) :
  Anim.shortestDelta target current total == target - current
  \/ Anim.shortestDelta target current total == target - current - total
  \/ Anim.shortestDelta target current total == target - current + total.
Proof.
  unfold Anim.shortestDelta.
  destruct (Qlt_le_dec _ _); [destruct (Qlt_le_dec _ _) |];
    [right; left | right; right | left]; reflexivity.
Qed.

(** A ring position that is whole turns away from the end of the shortest
    path is the target. *)
Lemma lands_of_congruent (total current target r : Q) (m : Z) :
  0 < total ->
  Anim.inRange total current -> Anim.inRange total target ->
  Anim.inRange total r ->
  r == current + Anim.shortestDelta target current total + inject_Z m * total ->
  r == target.
Proof.
  intros Ht Hc Hg Hin Hm.
  destruct (shortestDelta_cases total current target)
    as [E | [E | E]]; rewrite E in Hm.
  - apply (inRange_congruent total r target m Ht Hin Hg).
    rewrite Hm. ring.
  - apply (inRange_congruent total r target (m - 1) Ht Hin Hg).
    unfold Z.sub. rewrite inject_Z_plus, Hm.
    change (inject_Z (- (1))) with (- (1)). ring.
  - apply (inRange_congruent total r target (m + 1) Ht Hin Hg).
    rewrite inject_Z_plus, Hm. change (inject_Z 1) with 1. ring.
Qed.

(** X18.  The step animator lands on its target: for ring positions
    [current] and [target], the end value [current + delta] of the shortest
    path, once normalised, is the target itself. *)
Theorem step_animation_lands (total current target : Q) :
  0 < total ->
  Anim.inRange total current -> Anim.inRange total target ->
  exists r,
    Anim.normalize total (current + Anim.shortestDelta target current total)
      = Some r
    /\ r == target.
Proof.
  intros Ht Hc Hg.
  destruct (normalize_ends total
              (current + Anim.shortestDelta target current total) Ht)
    as (r & Hr & Hin).
  exists r. split; [exact Hr |].
  destruct (normalize_congruent _ _ _ Hr) as (m & Hm).
  exact (lands_of_congruent total current target r m Ht Hc Hg Hin Hm).
Qed.

Lemma step_animation_lands_witness :
  exists r, Anim.normalize 5 (0 + Anim.shortestDelta 4 0 5) = Some r /\ r == 4.
Proof.
  apply (step_animation_lands 5 0 4); unfold Anim.inRange; lra.
Defined.

Lemma progress_done (duration : Z) (t0 now : Z) :
  (0 < duration)%Z -> (t0 + duration <= now)%Z ->
  1 <= inject_Z (now - t0) / inject_Z duration.
Proof.
  intros Hd Hnow.
  assert (Hq : 0 < inject_Z duration)
    by (change 0 with (inject_Z 0); rewrite <- Zlt_Qlt; exact Hd).
  apply Qle_shift_div_l; [exact Hq |].
  rewrite Qmult_1_l, <- Zle_Qle. lia.
Qed.

(** X19.  Settling.  Let the effect start an animation at [t0] from a ring
    position towards a ring position, with [total > 0], [duration > 0] and
    an easing that ends on 1.  The frame that runs at or after
    [t0 + duration] hands a value equal to the target to [setCurrent], then
    the target itself, and requests no further frame; after that, running
    the effect again with the same arguments changes nothing. *)
Theorem step_animation_settles (p : Anim.Props) (t0 now later : Z)
        (s0 : Anim.StepAnim) :
  0 < Anim.total p ->
  Anim.inRange (Anim.total p) (Anim.current s0) ->
  Anim.inRange (Anim.total p) (Anim.target p) ->
  1 # 1000 <= Qabs (Anim.current s0 - Anim.target p) ->
  (0 < Anim.duration p)%Z -> (t0 + Anim.duration p <= now)%Z ->
  Anim.easeFn p 1 == 1 ->
  exists v s,
    Anim.animate now (Anim.effect p t0 s0) = Some ([v; Anim.target p], s)
    /\ v == Anim.target p
    /\ Anim.useStepAnimation s = Anim.target p
    /\ Anim.frameRef s = None
    /\ Anim.effect p later s = s
    /\ Anim.animate later s = Some ([], s).
Proof.
  intros Ht Hc Hg Hfar Hd Hnow Hease.
  unfold Anim.effect.
  destruct (Qlt_le_dec (Qabs (Anim.current s0 - Anim.target p)) (1 # 1000))
    as [Hnear | _]; [lra |].
  unfold Anim.animate.
  cbn [Anim.frameRef Anim.props Anim.startTimeRef Anim.startRef Anim.endValue].
  unfold Anim.progressAt.
  pose proof (progress_done (Anim.duration p) t0 now Hd Hnow) as Hp.
  destruct (Qlt_le_dec (inject_Z (now - t0) / inject_Z (Anim.duration p)) 1)
    as [Hlt | _]; [lra |].
  set (v0 := Anim.current s0 + _ * _).
  destruct (normalize_ends (Anim.total p) v0 Ht) as (r & Hr & Hin).
  rewrite Hr.
  destruct (Qlt_le_dec 1 1) as [Habs | _]; [lra |].
  assert (Hv0 : v0 == Anim.current s0
                      + Anim.shortestDelta (Anim.target p) (Anim.current s0)
                                           (Anim.total p)).
  { unfold v0. rewrite Hease. ring. }
  assert (Hland : r == Anim.target p).
  { destruct (normalize_congruent _ _ _ Hr) as (m & Hm).
    apply (lands_of_congruent (Anim.total p) (Anim.current s0)
             (Anim.target p) r m Ht Hc Hg Hin).
    rewrite Hm, Hv0. reflexivity. }
  eexists _, _. split; [reflexivity |].
  split; [exact Hland |].
  split; [reflexivity |]. split; [reflexivity |].
  split.
  - unfold Anim.effect. cbn [Anim.current Anim.startRef Anim.startTimeRef].
    destruct (Qlt_le_dec _ _) as [_ | Hge]; [reflexivity |].
    exfalso. revert Hge. apply Qabs_case; intros; lra.
  - reflexivity.
Qed.

End AnimMore.

Lemma step_animation_settles_witness :
  exists v s,
    Anim.animate 150
      (Anim.effect (Anim.mkProps 4 5 150 Anim.smoothStep) 0
         (Anim.mount (Anim.mkProps 0 5 150 Anim.smoothStep)))
    = Some ([v; 4%Q], s)
    /\ (v == 4)%Q
    /\ Anim.useStepAnimation s = 4%Q
    /\ Anim.frameRef s = None
    /\ Anim.effect (Anim.mkProps 4 5 150 Anim.smoothStep) 200 s = s
    /\ Anim.animate 200 s = Some ([], s).
Proof.
  apply (step_animation_settles (Anim.mkProps 4 5 150 Anim.smoothStep) 0 150 200
           (Anim.mount (Anim.mkProps 0 5 150 Anim.smoothStep)));
    try reflexivity;
    try (split; [discriminate | reflexivity]);
    try (intro H; discriminate H).
Defined.

(** ** [interpolate] *)

Section InterpFacts.
Local Open Scope Q_scope.

Lemma fraction_unit (x : Q) :
  0 <= x - inject_Z (Qfloor x) /\ x - inject_Z (Qfloor x) < 1.
Proof.
  pose proof (Qfloor_le x) as Hf. pose proof (Qlt_floor x) as Hc.
  rewrite inject_Z_plus in Hc. change (inject_Z 1) with 1 in Hc.
  split; lra.
Qed.

Lemma get_wrapped {A : Type} (values : list A) (x : Z) :
  (0 < JS.length values)%Z ->
  exists v,
    JS.get values (JS.rem (JS.rem x (JS.length values) + JS.length values)
                          (JS.length values)) = Some v
    /\ In v values.
Proof.
  intros HN.
  pose proof (rem_rem_range x (JS.length values) HN) as Hr.
  destruct (get_in_range values _ Hr) as (E & Hne).
  rewrite E in *.
  destruct (nth_error values _) as [v |] eqn:G; [| congruence].
  exists v. split; [reflexivity |].
  exact (nth_error_In _ _ G).
Qed.

(** X21.  [interpolate] always yields a number: 0 for no values, the value
    for one, and otherwise a mix of two neighbours; if all values lie in
    [lo, hi] and there is at least one, so does the result. *)
Theorem interpolate_bounds (values : list Q) (position lo hi : Q) :
  Forall (fun v => lo <= v /\ v <= hi) values ->
  exists r,
    Interp.interpolate values position = Some r
    /\ (values = [] -> r = 0)
    /\ (values <> [] -> lo <= r /\ r <= hi).
Proof.
  intros Hall. rewrite Forall_forall in Hall.
  unfold Interp.interpolate.
  destruct values as [| v0 [| v1 rest]].
  - exists 0. repeat split; congruence.
  - exists v0. split; [reflexivity |].
    split; [discriminate | intros _; apply Hall; left; reflexivity].
  - set (values := v0 :: v1 :: rest) in *.
    assert (HN : (0 < JS.length values)%Z)
      by (unfold JS.length, values; cbn [List.length]; lia).
    destruct (Z.eqb_spec (JS.length values) 0) as [E | _]; [lia |].
    destruct (Z.eqb_spec (JS.length values) 1) as [E | _].
    { unfold JS.length, values in E. cbn [List.length] in E. lia. }
    destruct (get_wrapped values (Qfloor position) HN) as (a & Ha & Hina).
    destruct (get_wrapped values (Qfloor position + 1) HN) as (b & Hb & Hinb).
    rewrite Ha, Hb. eexists. split; [reflexivity |].
    split; [discriminate |]. intros _.
    destruct (fraction_unit position) as [Hf0 Hf1].
    destruct (Hall a Hina) as [Ha0 Ha1]. destruct (Hall b Hinb) as [Hb0 Hb1].
    set (f := position - inject_Z (Qfloor position)) in *.
    split; nra.
Qed.

Lemma interpolate_bounds_witness :
  exists r,
    Interp.interpolate [1; 3; 2] (7 # 2) = Some r
    /\ ([1; 3; 2] = [] -> r = 0)
    /\ ([1; 3; 2] <> [] -> 1 <= r /\ r <= 3).
Proof.
  apply (interpolate_bounds [1; 3; 2] (7 # 2) 1 3).
  repeat constructor; discriminate.
Defined.

(** X22.  At a whole position [k], [interpolate] returns the value number
    [k mod length] (the list is read as a ring), and it is periodic: moving
    the position by the length of the list changes nothing. *)
Theorem interpolate_ring (values : list Q) (position : Q) (k : Z) :
  (0 < JS.length values)%Z ->
  (exists r v,
      Interp.interpolate values (inject_Z k) = Some r
      /\ JS.get values (k mod JS.length values) = Some v
      /\ r == v)
  /\ (exists r1 r2,
         Interp.interpolate values (position + inject_Z (JS.length values))
           = Some r1
         /\ Interp.interpolate values position = Some r2
         /\ r1 == r2).
Proof.
  intros HN. unfold Interp.interpolate.
  destruct (Z.eqb_spec (JS.length values) 0) as [E | _]; [lia |].
  destruct (Z.eqb_spec (JS.length values) 1) as [E1 | Hne1].
  - destruct (get_in_range values 0 ltac:(lia)) as (E0 & Hdef).
    destruct (JS.get values 0) as [v |] eqn:G; [| congruence].
    rewrite E1, Z.mod_1_r. rewrite G.
    split; [exists v, v | exists v, v]; repeat split; reflexivity.
  - split.
    + rewrite Qfloor_Z.
      destruct (get_wrapped values k HN) as (a & Ha & _).
      destruct (get_wrapped values (k + 1) HN) as (b & Hb & _).
      rewrite Ha, Hb. exists (a + (b - a) * (inject_Z k - inject_Z k)), a.
      split; [reflexivity |].
      split; [rewrite <- Ha; f_equal; symmetry; apply rem_rem_modulo; exact HN |].
      ring.
    + rewrite floor_shift.
      assert (Hw : forall x,
        JS.rem (JS.rem (x + JS.length values) (JS.length values)
                + JS.length values) (JS.length values)
        = JS.rem (JS.rem x (JS.length values) + JS.length values)
                 (JS.length values)).
      { intros x. rewrite !rem_rem_modulo by exact HN.
        rewrite <- (Z.mul_1_l (JS.length values)) at 1.
        apply Z.mod_add. lia. }
      replace (Qfloor position + JS.length values + 1)%Z
        with (Qfloor position + 1 + JS.length values)%Z by lia.
      rewrite !Hw.
      destruct (get_wrapped values (Qfloor position) HN) as (a & Ha & _).
      destruct (get_wrapped values (Qfloor position + 1) HN) as (b & Hb & _).
      rewrite Ha, Hb. eexists _, _.
      split; [reflexivity |]. split; [reflexivity |].
      rewrite inject_Z_plus. ring.
Qed.

Lemma interpolate_ring_witness :
  exists r v,
    Interp.interpolate [1; 3; 2] (inject_Z 4) = Some r
    /\ JS.get [1; 3; 2] (4 mod JS.length [1; 3; 2]) = Some v
    /\ r == v.
Proof.
  apply (interpolate_ring [1; 3; 2] 0 4).
  unfold JS.length. simpl. lia.
Defined.

End InterpFacts.

(** ** [useTypewriter] *)

Section TypewriterFacts.
Local Open Scope Z_scope.

Variable text : JSString.JSString.

Lemma typing_steps (n i : nat) :
  (i + n <= List.length text)%nat ->
  Typewriter.ticks n 0
    (Typewriter.mkHook (firstn i text) (Z.of_nat i) None [text])
  = Typewriter.mkHook (firstn (i + n) text) (Z.of_nat (i + n)) None [text].
Proof.
  revert i. induction n as [| n IH]; intros i Hn.
  - rewrite Nat.add_0_r. reflexivity.
  - cbn [Typewriter.ticks]. unfold Typewriter.intervalFires.
    cbn [Typewriter.intervals nth_error Typewriter.indexRef
         Typewriter.startTimer].
    destruct (Z.ltb_spec (Z.of_nat i) (JS.length text)) as [_ | Hge];
      [| unfold JS.length in Hge; lia].
    rewrite slice0_prefix by lia.
    replace (Z.to_nat (Z.of_nat i + 1)) with (S i) by lia.
    replace (Z.of_nat i + 1) with (Z.of_nat (S i)) by lia.
    rewrite (IH (S i)) by lia.
    replace (S i + n)%nat with (i + S n)%nat by lia. reflexivity.
Qed.

(** With no interval running, a tick is not an event. *)
Lemma ticks_no_interval (n k : nat) (h : Typewriter.Hook) :
  Typewriter.intervals h = [] -> Typewriter.ticks n k h = h.
Proof.
  intros Hi. induction n as [| n IH]; [reflexivity |].
  cbn [Typewriter.ticks]. unfold Typewriter.intervalFires.
  rewrite Hi. destruct k; exact IH.
Qed.

Lemma typing_done (n : nat) :
  Typewriter.ticks (S n) 0
    (Typewriter.mkHook text (JS.length text) None [text])
  = Typewriter.mkHook text (JS.length text) None [].
Proof.
  cbn [Typewriter.ticks]. unfold Typewriter.intervalFires.
  cbn [Typewriter.intervals nth_error Typewriter.indexRef].
  rewrite Z.ltb_irrefl.
  cbn [Typewriter.removeNth Typewriter.displayed Typewriter.startTimer].
  apply ticks_no_interval. reflexivity.
Qed.

Lemma started (h : Typewriter.Hook) :
  Typewriter.intervals h = [] ->
  Typewriter.startFires (Typewriter.effect text h)
  = Typewriter.mkHook (firstn 0 text) (Z.of_nat 0) None [text].
Proof.
  intros Hi. unfold Typewriter.startFires, Typewriter.effect, Typewriter.cleanup.
  cbn [Typewriter.startTimer Typewriter.displayed Typewriter.indexRef
       Typewriter.intervals].
  rewrite Hi. reflexivity.
Qed.

(** X24.  Typing.  Once the start timer has run, [n] ticks of the interval
    show the first [n] units of the text; the text is complete after
    [length] ticks, the tick after that clears the interval, and further
    ticks change nothing. *)
Theorem typewriter_types (h : Typewriter.Hook) (n : nat) :
  Typewriter.intervals h = [] ->
  let h' := Typewriter.ticks n 0
              (Typewriter.startFires (Typewriter.effect text h)) in
  Typewriter.displayed h' = firstn n text
  /\ ((n <= List.length text)%nat -> Typewriter.intervals h' = [text])
  /\ ((List.length text < n)%nat ->
      Typewriter.displayed h' = text /\ Typewriter.intervals h' = []).
Proof.
  intros Hi h'. subst h'. rewrite (started h Hi).
  destruct (Nat.le_gt_cases n (List.length text)) as [Hle | Hgt].
  - rewrite (typing_steps n 0) by lia. cbn [Nat.add].
    split; [reflexivity |]. split; [reflexivity | lia].
  - assert (Hsplit : forall a b h0,
              Typewriter.ticks (a + b) 0 h0
              = Typewriter.ticks b 0 (Typewriter.ticks a 0 h0)).
    { induction a as [| a IH]; intros b h0; [reflexivity |].
      cbn [Nat.add Typewriter.ticks]. apply IH. }
    replace n with (List.length text + S (n - List.length text - 1))%nat by lia.
    rewrite Hsplit, (typing_steps (List.length text) 0) by lia.
    cbn [Nat.add]. rewrite firstn_all.
    change (Z.of_nat (List.length text)) with (JS.length text).
    rewrite typing_done. cbn [Typewriter.displayed Typewriter.intervals].
    split; [symmetry; apply firstn_all2; lia |].
    split; [lia | intros _; split; reflexivity].
Qed.

(** X25.  The cleanup only cancels the start timer.  Run before the start
    timer, it prevents the typing altogether; run after it, it stops
    nothing: the interval keeps ticking and goes on to set the whole text. *)
Theorem typewriter_cleanup (h : Typewriter.Hook) (n : nat) :
  Typewriter.intervals h = [] ->
  Typewriter.ticks n 0
    (Typewriter.startFires (Typewriter.cleanup (Typewriter.effect text h)))
  = Typewriter.cleanup (Typewriter.effect text h)
  /\ Typewriter.displayed
       (Typewriter.cleanup (Typewriter.effect text h)) = []
  /\ Typewriter.intervals
       (Typewriter.cleanup
          (Typewriter.startFires (Typewriter.effect text h))) = [text]
  /\ Typewriter.displayed
       (Typewriter.ticks (List.length text) 0
          (Typewriter.cleanup
             (Typewriter.startFires (Typewriter.effect text h)))) = text.
Proof.
  intros Hi. split; [| split; [reflexivity | split]].
  - unfold Typewriter.startFires, Typewriter.cleanup, Typewriter.effect.
    cbn [Typewriter.startTimer Typewriter.intervals Typewriter.displayed
         Typewriter.indexRef].
    apply ticks_no_interval. exact Hi.
  - rewrite (started h Hi). reflexivity.
  - rewrite (started h Hi).
    change (Typewriter.cleanup
              (Typewriter.mkHook (firstn 0 text) (Z.of_nat 0) None [text]))
      with (Typewriter.mkHook (firstn 0 text) (Z.of_nat 0) None [text]).
    rewrite (typing_steps (List.length text) 0) by lia.
    cbn [Nat.add Typewriter.displayed]. apply firstn_all.
Qed.

End TypewriterFacts.

Lemma typewriter_types_witness :
  Typewriter.displayed
    (Typewriter.ticks 2 0
       (Typewriter.startFires
          (Typewriter.effect [72; 105; 33]%N Typewriter.mounted)))
  = firstn 2 [72; 105; 33]%N.
Proof.
  apply (typewriter_types [72; 105; 33]%N Typewriter.mounted 2).
  reflexivity.
Defined.

Lemma typewriter_cleanup_witness :
  Typewriter.displayed
    (Typewriter.ticks (List.length [72; 105; 33]%N) 0
       (Typewriter.cleanup
          (Typewriter.startFires
             (Typewriter.effect [72; 105; 33]%N Typewriter.mounted))))
  = [72; 105; 33]%N.
Proof.
  apply (typewriter_cleanup [72; 105; 33]%N Typewriter.mounted 0).
  reflexivity.
Defined.

(** ** The easing table: range and overshoot *)

Section EaseMore.
Local Open Scope R_scope.

(** X26.  On [0, 1] every easing other than [outElastic] and [outBack]
    stays within [0, 1]. *)
Theorem ease_unit_range (f : Ease.EaseFn) (t : R) :
  f <> Ease.OutElastic -> f <> Ease.OutBack ->
  0 <= t <= 1 -> 0 <= Ease.ease f t <= 1.
Proof.
  intros He Hb [H0 H1].
  assert (Hsq : 0 <= t * t) by nra.
  assert (Hsq1 : t * t <= 1) by nra.
  assert (Hu : 0 <= (1 - t) * (1 - t) <= 1) by nra.
  destruct f; try contradiction; cbn [Ease.ease];
    unfold Ease.linear, Ease.inQuad, Ease.outQuad, Ease.inOutQuad,
      Ease.inCubic, Ease.outCubic, Ease.inOutCubic, Ease.smoothStep,
      Ease.snap; cbv zeta; try destruct (Rlt_dec _ _) as [Hlt | Hge];
    try (apply Rnot_lt_le in Hge).
  - lra.
  - lra.
  - split; nra.
  - split; nra.
  - split; nra.
  - split; [nra |]. assert (t * t * t <= t * t) by nra. lra.
  - assert (0 <= (1 - t) * (1 - t) * (1 - t)) by nra.
    assert ((1 - t) * (1 - t) * (1 - t) <= (1 - t) * (1 - t)) by nra.
    split; nra.
  - assert (0 <= t * t * t) by nra.
    assert (t * t * t <= t * t * (1 / 2)) by nra.
    assert (t * t <= 1 / 4) by nra.
    split; nra.
  - assert (0 <= (1 - t) * (1 - t) * (1 - t)) by nra.
    assert ((1 - t) * (1 - t) * (1 - t) <= (1 - t) * (1 - t) * (1 / 2)) by nra.
    assert ((1 - t) * (1 - t) <= 1 / 4) by nra.
    split; nra.
  - assert (0 <= t * t * (1 - t)) by nra.
    assert (0 <= t * (1 - t) * (1 - t)) by nra.
    split; nra.
  - simpl. split; nra.
  - simpl. split; nra.
Qed.

Lemma ease_unit_range_witness :
  0 <= Ease.ease Ease.SmoothStep (1 / 3) <= 1.
Proof.
  apply (ease_unit_range Ease.SmoothStep (1 / 3));
    [discriminate | discriminate | lra].
Defined.



End EaseMore.

(** ** [Progress] and [LoadingBar] *)

Section WidgetFacts.
Local Open Scope Z_scope.






Lemma cell_full (a : Z) (i : nat) :
  0 <= a ->
  N.eqb Widgets.full (Widgets.loadingCell a (Z.of_nat i))
  = Nat.eqb (Z.to_nat a) i.
Proof.
  intros Ha. unfold Widgets.loadingCell. cbv zeta.
  destruct (Nat.eqb_spec (Z.to_nat a) i) as [E | E].
  - destruct (Z.eqb_spec (Z.abs (Z.of_nat i - a)) 0); [reflexivity | lia].
  - destruct (Z.eqb_spec (Z.abs (Z.of_nat i - a)) 0); [lia |].
    repeat match goal with
           | |- context [Z.eqb ?x ?y] => destruct (Z.eqb x y)
           end; reflexivity.
Qed.

Lemma seq_no_hit (a s n : nat) :
  (s + n <= a)%nat -> filter (Nat.eqb a) (seq s n) = [].
Proof.
  revert s. induction n as [| n IH]; intros s Hs; [reflexivity |].
  cbn [seq filter]. destruct (Nat.eqb_spec a s); [lia |].
  apply IH. lia.
Qed.

(** X30.  [LoadingBar]: the highlight position bounces within
    [0 .. width], the bar is always [width] units long, and it holds one
    full block, except at the turning frames where the position equals
    [width], one past the last cell, and the bar holds none. *)
Theorem loadingBar_spec (frame width : Z) :
  0 < width -> 0 <= frame ->
  0 <= Widgets.loadingPos frame width <= width
  /\ JS.length (Widgets.loadingBar frame width) = width
  /\ List.length (filter (N.eqb Widgets.full) (Widgets.loadingBar frame width))
     = (if Widgets.loadingPos frame width <? width then 1%nat else 0%nat).
Proof.
  intros Hw Hf.
  assert (Hpos : 0 <= Widgets.loadingPos frame width <= width).
  { unfold Widgets.loadingPos, JS.rem. cbv zeta.
    assert (H3 : 0 <= frame / 3) by (apply Z.div_pos; lia).
    rewrite Z.rem_mod_nonneg by lia.
    pose proof (Z.mod_pos_bound (frame / 3) (width * 2) ltac:(lia)) as Hb.
    destruct (Z.ltb_spec width ((frame / 3) mod (width * 2))); lia. }
  split; [exact Hpos |].
  unfold Widgets.loadingBar.
  split; [unfold JS.length; rewrite length_map, length_seq; lia |].
  set (a := Widgets.loadingPos frame width) in *.
  assert (Hcount : forall l,
    List.length (filter (N.eqb Widgets.full)
                   (map (fun i => Widgets.loadingCell a (Z.of_nat i)) l))
    = List.length (filter (Nat.eqb (Z.to_nat a)) l)).
  { induction l as [| i l IH]; [reflexivity |].
    cbn [map filter]. rewrite (cell_full a i) by lia.
    destruct (Nat.eqb (Z.to_nat a) i); cbn [List.length]; rewrite IH;
      reflexivity. }
  rewrite Hcount.
  destruct (Z.ltb_spec a width).
  - apply seq_one_hit. lia.
  - rewrite seq_no_hit by lia. reflexivity.
Qed.

Lemma loadingBar_spec_witness :
  List.length (filter (N.eqb Widgets.full) (Widgets.loadingBar 60 20)) = 0%nat.
Proof.
  destruct (loadingBar_spec 60 20 ltac:(lia) ltac:(lia)) as (_ & _ & H).
  exact H.
Defined.

End WidgetFacts.
